(** * clinker/align.py: alignment store, identity computation, homology
      grouping and synteny scoring

    A shallow embedding of [clinker/align.py].  Python objects that are
    shared and mutated (genes, generator objects) carry an object identity;
    dictionaries are finite maps; the ordered cluster dictionary is an
    association list; exceptions are an error type, and a raising call
    keeps the mutations it made before raising.  A finite float is
    modelled by an exact rational; the infinities and nan are values of
    their own where a caller can pass them ([Float]), and the rounding of
    an operation is a function of its own where a statement depends on it
    ([Records.score]). *)

From Stdlib Require Import QArith Qminmax Ascii String.
From Stdlib Require Import Lqa.
From stdpp Require Import gmap strings list fin_maps pretty.

Local Open Scope string_scope.
Local Open Scope list_scope.

(** ** Python outcomes *)

Inductive exn : Type :=
  | KeyError
  | IndexError
  | TypeError
  | ValueError
  | ZeroDivisionError
  | NotImplementedError.

Inductive result (A : Type) : Type :=
  | Ok (a : A)
  | Raise (e : exn).
Arguments Ok {A} a.
Arguments Raise {A} e.

Definition rbind {A B} (r : result A) (k : A → result B) : result B :=
  match r with
  | Ok a => k a
  | Raise e => Raise e
  end.

(** ** Python floats *)

(** A Python float, or a cell of a numpy float array: a finite number, one
    of the two infinities, or nan.  The operations follow IEEE 754 as
    Python and numpy apply it to the special values; on finite numbers
    they are exact, and the sign of a zero is not kept. *)
Module Float.

Inductive t : Type :=
  | Finite (q : Q)
  | PosInf
  | NegInf
  | NaN.

Definition neg (x : t) : t :=
  match x with
  | Finite q => Finite (- q)
  | PosInf => NegInf
  | NegInf => PosInf
  | NaN => NaN
  end.

(** The product of the infinity [s] and the finite number [q]: nan when
    [q] is zero. *)
Definition scale_inf (s : t) (q : Q) : t :=
  match (q ?= 0)%Q with
  | Eq => NaN
  | Gt => s
  | Lt => neg s
  end.

(** [x * y]. *)
Definition mul (x y : t) : t :=
  match x, y with
  | NaN, _ | _, NaN => NaN
  | Finite a, Finite b => Finite (a * b)
  | Finite a, s => scale_inf s a
  | s, Finite b => scale_inf s b
  | PosInf, PosInf | NegInf, NegInf => PosInf
  | PosInf, NegInf | NegInf, PosInf => NegInf
  end.

(** [x + y]. *)
Definition add (x y : t) : t :=
  match x, y with
  | NaN, _ | _, NaN => NaN
  | Finite a, Finite b => Finite (a + b)
  | PosInf, NegInf | NegInf, PosInf => NaN
  | Finite _, s => s
  | s, _ => s
  end.

(** [x - y]. *)
Definition sub (x y : t) : t := add x (neg y).

(** [x / y] on numpy floats: a division by zero gives an infinity or nan,
    not an exception. *)
Definition div (x y : t) : t :=
  match x, y with
  | NaN, _ | _, NaN => NaN
  | Finite a, Finite b =>
      if Qeq_bool b 0 then
        match (a ?= 0)%Q with
        | Eq => NaN
        | Gt => PosInf
        | Lt => NegInf
        end
      else Finite (a / b)
  | Finite _, _ => Finite 0
  | s, Finite b =>
      match (b ?= 0)%Q with
      | Lt => neg s
      | _ => s
      end
  | _, _ => NaN
  end.

(** The larger of two cells as [ndarray.max] takes it: nan wins. *)
Definition max (x y : t) : t :=
  match x, y with
  | NaN, _ | _, NaN => NaN
  | PosInf, _ | _, PosInf => PosInf
  | NegInf, z | z, NegInf => z
  | Finite a, Finite b => Finite (Qmax a b)
  end.

End Float.

(** ** Identity and similarity of one gapped alignment *)

Module Identity.

(** [str.split("\n")]. *)
Fixpoint split_lines (s : string) : list string :=
  match s with
  | EmptyString => [EmptyString]
  | String c rest =>
      if Ascii.eqb c "010"%char then EmptyString :: split_lines rest
      else match split_lines rest with
           | line :: lines => String c line :: lines
           | [] => [String c EmptyString]
           end
  end.

(** Amino acid similarity groups. *)
Definition similar_acids : list (list ascii) :=
  [ ["G"; "A"; "V"; "L"; "I"];
    ["F"; "Y"; "W"];
    ["C"; "M"];
    ["S"; "T"];
    ["K"; "R"; "H"];
    ["D"; "E"; "N"; "Q"];
    ["P"] ]%char.

Definition char_in (c : ascii) (group : list ascii) : bool :=
  existsb (Ascii.eqb c) group.

(** The test [one[i] not in {"-", "."}] is the negation of this one. *)
Definition gap_char (c : ascii) : bool :=
  char_in c ["-"; "."]%char.

(** The loop over [similar_acids]: the first group holding both residues
    counts once, then the loop breaks. *)
Definition similar_pair (a b : ascii) : bool :=
  existsb (λ group, char_in a group && char_in b group) similar_acids.

(** The three locals the column loop updates. *)
Record counters : Type := Counters {
  matches : Z;
  similar : Z;
  length_ : Z
}.

(** Body of the loop at column [i], both characters already read. *)
Definition column (a b : ascii) (c : counters) : counters :=
  if Ascii.eqb a b then
    if negb (gap_char a) then
      Counters (matches c + 1) (similar c) (length_ c)
    else
      Counters (matches c) (similar c) (length_ c - 1)
  else
    if similar_pair a b then
      Counters (matches c) (similar c + 1) (length_ c)
    else c.

(** One iteration of [for i in range(length)]; indexing past the end of
    either string raises [IndexError]. *)
Definition column_at (one two : string) (acc : result counters) (i : nat)
  : result counters :=
  rbind acc (λ c,
    match String.get i one, String.get i two with
    | Some a, Some b => Ok (column a b c)
    | _, _ => Raise IndexError
    end).

(** The range is fixed when the loop starts, although [length] is
    decremented inside it. *)
Definition scan (one two : string) : result counters :=
  fold_left (column_at one two) (seq 0 (String.length one))
    (Ok (Counters 0 0 (Z.of_nat (String.length one)))).

(** True division of two Python ints. *)
Definition true_div (n d : Z) : result Q :=
  if Z.eqb d 0 then Raise ZeroDivisionError
  else Ok (inject_Z n / inject_Z d)%Q.

(** Lines 108-138: the calculation on the two aligned strings. *)
Definition identity_of_strings (one two : string) : result (Q * Q) :=
  rbind (scan one two) (λ c,
    rbind (true_div (matches c) (length_ c)) (λ identity,
      rbind (true_div (matches c + similar c) (length_ c)) (λ similarity,
        Ok (identity, similarity)))).

(** [compute_identity(alignment)], on the text [str(alignment)] of the
    pairwise alignment: the unpacking needs exactly four lines. *)
Definition compute_identity (alignment : string) : result (Q * Q) :=
  match split_lines alignment with
  | [one; _; two; _] => identity_of_strings one two
  | _ => Raise ValueError
  end.

(** A column in which both strings hold the same gap character: the only
    kind of column the loop takes off the length. *)
Definition gap_column (one two : string) (i : nat) : bool :=
  match String.get i one, String.get i two with
  | Some a, Some b => Ascii.eqb a b && gap_char a
  | _, _ => false
  end.

Definition all_gap_columns (one two : string) : bool :=
  forallb (gap_column one two) (seq 0 (String.length one)).

(** The text of a pairwise alignment: first sequence, match line, second
    sequence, and the final newline. *)
Definition alignment_text (one mid two : string) : string :=
  one +:+ String "010" (mid +:+ String "010" (two +:+ String "010" "")).

End Identity.


(** ** Data model

    [Cluster], [Locus] and [Gene] come from [clinker.classes]; only the
    fields this module reads are kept.  A gene object is shared between
    its locus and the links that name it, so it carries its object
    identity; its mutable [_group] attribute lives in the heap, keyed by
    that identity. *)

Module Gene.
Record t : Type := Make {
  id : nat;
  uid : string;
  names : list string;
  translation : string
}.
End Gene.

Module Locus.
Record t : Type := Make {
  uid : string;
  genes : list Gene.t
}.
End Locus.

Module Cluster.
Record t : Type := Make {
  uid : string;
  name : string;
  loci : list Locus.t
}.
End Cluster.

Module Link.
Record t : Type := Make {
  uid : string;
  query : Gene.t;
  target : Gene.t;
  identity : Q;
  similarity : Q
}.
End Link.

Module Alignment.
Record t : Type := Make {
  uid : string;
  query : Cluster.t;
  target : Cluster.t;
  links : list Link.t
}.
End Alignment.

(** Equality as Python's [==] sees it ([in], [list.count], set
    membership). *)
Class PyEq (A : Type) : Type := py_eqb : A → A → bool.

(** [x in l]. *)
Definition py_in {A} `{PyEq A} (x : A) (l : list A) : bool :=
  existsb (py_eqb x) l.

(** [l.count(x)]. *)
Definition py_count {A} `{PyEq A} (x : A) (l : list A) : nat :=
  length (List.filter (py_eqb x) l).

(** [set(l)], one representative for each class of equal elements. *)
Fixpoint py_set {A} `{PyEq A} (l : list A) : list A :=
  match l with
  | [] => []
  | x :: l' => x :: List.filter (λ y, negb (py_eqb x y)) (py_set l')
  end.

(** Genes are compared as objects. *)
#[global] Instance gene_pyeq : PyEq Gene.t :=
  λ a b, Nat.eqb (Gene.id a) (Gene.id b).

(** Tuples of ints are compared by value. *)
#[global] Instance pair_pyeq : PyEq (nat * nat) :=
  λ a b, Nat.eqb a.1 b.1 && Nat.eqb a.2 b.2.

(** The mutable part of the object graph: the [_group] attribute of each
    gene object, the next unused object identity, and the two class-level
    counters [Alignment.id_iter] and [Link.id_iter]. *)
Record heap : Type := Heap {
  group_attr : gmap nat nat;
  next_object : nat;
  alignment_id_iter : nat;
  link_id_iter : nat
}.

(** [gene._group = i]. *)
Definition set_group (gene : Gene.t) (i : nat) (h : heap) : heap :=
  Heap (<[Gene.id gene := i]> (group_attr h)) (next_object h)
       (alignment_id_iter h) (link_id_iter h).

(** [link.identity < threshold]. *)
Definition Qlt_bool (x y : Q) : bool :=
  (Qnum x * Z.pos (Qden y) <? Qnum y * Z.pos (Qden x))%Z.

(** ** Homology grouping *)

Module Grouping.

(** One step of [for gene in [link.query, link.target]] inside a group
    that was found. *)
Definition absorb (i : nat) (st : list Gene.t * heap) (gene : Gene.t)
  : list Gene.t * heap :=
  if py_in gene st.1 then st
  else (st.1 ++ [gene], set_group gene i st.2).

(** [for (i, group) in enumerate(groups)], from position [i] on: [Some]
    when a group holding an endpoint was found (the loop breaks there),
    [None] when the loop ran to its end with [found] still false. *)
Fixpoint scan_groups (i : nat) (groups : list (list Gene.t)) (link : Link.t)
    (h : heap) : option (list (list Gene.t) * heap) :=
  match groups with
  | [] => None
  | group :: rest =>
      if py_in (Link.query link) group || py_in (Link.target link) group then
        let st := fold_left (absorb i) [Link.query link; Link.target link]
                    (group, h) in
        Some (st.1 :: rest, st.2)
      else
        match scan_groups (S i) rest link h with
        | Some st => Some (group :: st.1, st.2)
        | None => None
        end
  end.

(** Body of [for link in links]. *)
Definition group_link (threshold : Q) (st : list (list Gene.t) * heap)
    (link : Link.t) : list (list Gene.t) * heap :=
  if Qlt_bool (Link.identity link) threshold then st
  else
    match scan_groups 0 st.1 link st.2 with
    | Some st' => st'
    | None =>
        let groups := st.1 ++ [[Link.query link; Link.target link]] in
        let index := length groups - 1 in
        (groups,
         set_group (Link.target link) index
           (set_group (Link.query link) index st.2))
    end.

(** The local [groups] list together with the heap, when the loop over the
    links ends. *)
Definition grouping (links : list Link.t) (threshold : Q) (h : heap)
  : list (list Gene.t) * heap :=
  fold_left (group_link threshold) links ([], h).

(** [assign_groups(links, threshold)]: returns nothing, its effect is on
    the [_group] attributes. *)
Definition assign_groups (links : list Link.t) (threshold : Q) (h : heap)
  : heap :=
  (grouping links threshold h).2.

Definition default_threshold : Q := 3 # 10.

End Grouping.

(** ** Contiguity of homology groups *)

Module Contiguity.

(** The object made by [(gene._group for gene in locus.genes[i:i+2])]: the
    slice is taken when the object is made, the attributes are read only
    when it is iterated. *)
Record generator : Type := Generator {
  gen_id : nat;
  gen_genes : list Gene.t
}.

(** Generator objects define neither [__eq__] nor [__hash__]: they are
    equal only to themselves. *)
#[global] Instance generator_pyeq : PyEq generator :=
  λ a b, Nat.eqb (gen_id a) (gen_id b).

(** What iterating over the object would yield. *)
Definition gen_values (g : generator) (h : heap) : list (option nat) :=
  (λ gene, group_attr h !! Gene.id gene) <$> gen_genes g.

Definition new_generator (genes : list Gene.t) (h : heap)
  : generator * heap :=
  (Generator (next_object h) genes,
   Heap (group_attr h) (S (next_object h))
        (alignment_id_iter h) (link_id_iter h)).

(** [pairs.extend(... for i in range(total))] for one locus. *)
Definition locus_pairs (st : list generator * heap) (locus : Locus.t)
  : list generator * heap :=
  let total := (Z.of_nat (length (Locus.genes locus)) - 1)%Z in
  fold_left
    (λ st i,
       let r := new_generator (take 2 (drop i (Locus.genes locus))) st.2 in
       (st.1 ++ [r.1], r.2))
    (seq 0 (Z.to_nat total)) st.

(** [get_pairs(cluster)]. *)
Definition get_pairs (cluster : Cluster.t) (h : heap)
  : list generator * heap :=
  fold_left locus_pairs (Cluster.loci cluster) ([], h).

(** [compare_pairs(one, two)]. *)
Definition compare_pairs {A} `{PyEq A} (one two : list A) : nat :=
  fold_left
    (λ total pair, total + Nat.min (py_count pair one) (py_count pair two))
    (List.filter (λ pair, py_in pair two) (py_set one)) 0.

End Contiguity.


(** ** State and exceptions

    A method is a function of the state that returns an outcome and the
    state it leaves behind; a raised exception does not undo the updates
    made before it. *)

Definition M (S A : Type) : Type := S → result A * S.

#[global] Instance M_ret {S} : MRet (M S) := λ A a s, (Ok a, s).

#[global] Instance M_bind {S} : MBind (M S) := λ A B k m s,
  match m s with
  | (Ok a, s') => k a s'
  | (Raise e, s') => (Raise e, s')
  end.

Definition raise {S A} (e : exn) : M S A := λ s, (Raise e, s).

Definition gets {S A} (f : S → A) : M S A := λ s, (Ok (f s), s).

Definition modify {S} (f : S → S) : M S unit := λ s, (Ok tt, f s).

(** [for x in l: body(x)], collecting the values. *)
Fixpoint for_each {S A B} (body : A → M S B) (l : list A) : M S (list B) :=
  match l with
  | [] => mret []
  | x :: l' => y ← body x; ys ← for_each body l'; mret (y :: ys)
  end.

(** [enumerate(l)]. *)
Definition enumerate {A} (l : list A) : list (nat * A) :=
  zip (seq 0 (length l)) l.

(** ** The alignment store *)

Module Store.

Import Grouping Contiguity.

(** What [_alignment_indices] holds: [add_alignment] stores positions in
    [alignments], [from_dict] stores the alignment objects themselves. *)
Inductive index_value : Type :=
  | IntIndex (n : nat)
  | ObjIndex (a : Alignment.t).

(** The fields of a [Globaligner] that are used after [__init__]
    ([_alignments] and [_link] are never touched again, the aligner is an
    external collaborator).  [clusters] is the [OrderedDict]. *)
Record Globaligner : Type := Make {
  _genes : gmap string Gene.t;
  _loci : gmap string Locus.t;
  _alignment_indices : gmap string (gmap string index_value);
  _cluster_names : gmap (nat + string) (string * string);
  alignments : list Alignment.t;
  clusters : list (string * Cluster.t)
}.

(** [Globaligner()]. *)
Definition init : Globaligner := Make ∅ ∅ ∅ ∅ [] [].

Definition with_genes (f : gmap string Gene.t → gmap string Gene.t)
    (g : Globaligner) : Globaligner :=
  Make (f (_genes g)) (_loci g) (_alignment_indices g) (_cluster_names g)
       (alignments g) (clusters g).

Definition with_loci (f : gmap string Locus.t → gmap string Locus.t)
    (g : Globaligner) : Globaligner :=
  Make (_genes g) (f (_loci g)) (_alignment_indices g) (_cluster_names g)
       (alignments g) (clusters g).

Definition with_indices
    (f : gmap string (gmap string index_value) →
         gmap string (gmap string index_value))
    (g : Globaligner) : Globaligner :=
  Make (_genes g) (_loci g) (f (_alignment_indices g)) (_cluster_names g)
       (alignments g) (clusters g).

Definition with_names
    (f : gmap (nat + string) (string * string) →
         gmap (nat + string) (string * string))
    (g : Globaligner) : Globaligner :=
  Make (_genes g) (_loci g) (_alignment_indices g) (f (_cluster_names g))
       (alignments g) (clusters g).

Definition with_alignments (f : list Alignment.t → list Alignment.t)
    (g : Globaligner) : Globaligner :=
  Make (_genes g) (_loci g) (_alignment_indices g) (_cluster_names g)
       (f (alignments g)) (clusters g).

Definition with_clusters
    (f : list (string * Cluster.t) → list (string * Cluster.t))
    (g : Globaligner) : Globaligner :=
  Make (_genes g) (_loci g) (_alignment_indices g) (_cluster_names g)
       (alignments g) (f (clusters g)).

(** [d[k] = v] on an [OrderedDict]: a known key keeps its position. *)
Fixpoint odict_set {V} (k : string) (v : V) (d : list (string * V))
  : list (string * V) :=
  match d with
  | [] => [(k, v)]
  | kv :: d' =>
      if String.eqb kv.1 k then (kv.1, v) :: d'
      else kv :: odict_set k v d'
  end.

(** [d[k]] on an [OrderedDict]. *)
Fixpoint odict_get {V} (k : string) (d : list (string * V)) : option V :=
  match d with
  | [] => None
  | kv :: d' => if String.eqb kv.1 k then Some kv.2 else odict_get k d'
  end.

(** [d[k]] on a [defaultdict(dict)]: a missing key is inserted with an
    empty dictionary. *)
Definition default_get {V} (k : string) (d : gmap string (gmap string V))
  : gmap string V * gmap string (gmap string V) :=
  match d !! k with
  | Some inner => (inner, d)
  | None => (∅, <[k := ∅]> d)
  end.

(** [d.get(k1, {}).get(k2)], a read that inserts nothing. *)
Definition lookup2 {V} (d : gmap string (gmap string V)) (k1 k2 : string)
  : option V :=
  d !! k1 ≫= (.!! k2).

(** [self._alignment_indices[k]]. *)
Definition indices_at (k : string)
  : M Globaligner (gmap string index_value) := λ g,
  let r := default_get k (_alignment_indices g) in
  (Ok r.1, with_indices (λ _, r.2) g).

(** [self._alignment_indices[k1][k2] = v]. *)
Definition indices_set (k1 k2 : string) (v : index_value)
  : M Globaligner unit :=
  inner ← indices_at k1;
  modify (with_indices (λ d, <[k1 := <[k2 := v]> inner]> d)).

(** An argument of [add_clusters], as [isinstance] sees it. *)
Inductive pyarg : Type :=
  | ACluster (c : Cluster.t)
  | AOther.

Definition index_locus (g : Globaligner) (locus : Locus.t) : Globaligner :=
  fold_left (λ g gene, with_genes (λ m, <[Gene.uid gene := gene]> m) g)
    (Locus.genes locus)
    (with_loci (λ m, <[Locus.uid locus := locus]> m) g).

Definition add_cluster (arg : pyarg) : M Globaligner unit :=
  match arg with
  | AOther => raise NotImplementedError
  | ACluster cluster =>
      modify (λ g,
        fold_left index_locus (Cluster.loci cluster)
          (with_clusters (odict_set (Cluster.uid cluster) cluster) g))
  end.

(** [add_clusters(cluster, ...)]. *)
Definition add_clusters (args : list pyarg) : M Globaligner unit :=
  for_each add_cluster args ≫= λ _, mret tt.

(** [if index:] on the value of [dict.get]. *)
Definition truthy (index : option index_value) : bool :=
  match index with
  | None => false
  | Some (IntIndex 0) => false
  | Some (IntIndex (S _)) => true
  | Some (ObjIndex _) => true
  end.

(** [self.alignments[index] = alignment]. *)
Definition alignments_setitem (index : index_value) (a : Alignment.t)
  : M Globaligner nat :=
  match index with
  | ObjIndex _ => raise TypeError
  | IntIndex n =>
      len ← gets (λ g, length (alignments g));
      if decide (n < len) then
        modify (with_alignments (λ l, <[n := a]> l)) ≫= λ _, mret n
      else raise IndexError
  end.

(** The last three statements of [add_alignment]: update the mapping
    dictionaries. *)
Definition update_mappings (q t : string) (index : nat)
  : M Globaligner unit :=
  _ ← indices_set q t (IntIndex index);
  _ ← indices_set t q (IntIndex index);
  modify (with_names (λ d, <[inl index := (q, t)]> d)).

(** [add_alignment(alignment)]. *)
Definition add_alignment (alignment : Alignment.t) : M Globaligner unit :=
  let q := Alignment.query alignment in
  let t := Alignment.target alignment in
  _ ← add_clusters [ACluster q; ACluster t];
  inner ← indices_at (Cluster.uid q);
  let index := inner !! Cluster.uid t in
  index ←
    (if truthy index then
       match index with
       | Some v => alignments_setitem v alignment
       | None => raise TypeError
       end
     else
       len ← gets (λ g, length (alignments g));
       _ ← modify (with_alignments (λ l, l ++ [alignment]));
       mret len);
  update_mappings (Cluster.uid q) (Cluster.uid t) index.

(** [self.alignments[index]]. *)
Definition alignments_getitem (index : index_value)
  : M Globaligner Alignment.t :=
  match index with
  | ObjIndex _ => raise TypeError
  | IntIndex n =>
      l ← gets alignments;
      match l !! n with
      | Some a => mret a
      | None => raise IndexError
      end
  end.

(** [get_alignment(one, two)]. *)
Definition get_alignment (one two : string) : M Globaligner Alignment.t :=
  inner ← indices_at one;
  match inner !! two with
  | Some index => alignments_getitem index
  | None => raise KeyError
  end.

(** [synteny] and [matrix] also touch the heap: gene groups and the
    generator objects of [get_pairs]. *)
Definition world : Type := Globaligner * heap.

Definition on_store {A} (m : M Globaligner A) : M world A := λ w,
  let r := m w.1 in (r.1, (r.2, w.2)).

Definition on_heap {A} (f : heap → A * heap) : M world A := λ w,
  let r := f w.2 in (Ok r.1, (w.1, r.2)).

(** [self.clusters[k]]. *)
Definition cluster_at (k : string) : M world Cluster.t := λ w,
  match odict_get k (clusters w.1) with
  | Some c => (Ok c, w)
  | None => (Raise KeyError, w)
  end.

(** [sum(...)] of floats, from 0, left to right. *)
Definition py_sum (l : list Q) : Q := fold_left Qplus l 0%Q.

(** [synteny(one, two, i)]; the weight [i] is whatever number the caller
    gives, the identities of the links are finite. *)
Definition synteny (one two : string) (i : Float.t) : M world Float.t :=
  alignment ← on_store (get_alignment one two);
  let homology := py_sum (Link.identity <$> Alignment.links alignment) in
  _ ← on_heap (λ h,
        (tt, assign_groups (Alignment.links alignment) default_threshold h));
  one_cluster ← cluster_at one;
  two_cluster ← cluster_at two;
  one_pairs ← on_heap (get_pairs one_cluster);
  two_pairs ← on_heap (get_pairs two_cluster);
  let contiguity := compare_pairs one_pairs two_pairs in
  mret (Float.add (Float.Finite homology)
          (Float.mul i (Float.Finite (inject_Z (Z.of_nat contiguity))))).

(** [matrix.max()]; numpy refuses an empty array. *)
Definition matrix_max {S} (m : list (list Float.t)) : M S Float.t :=
  match concat m with
  | [] => raise ValueError
  | x :: xs => mret (fold_left Float.max xs x)
  end.

(** [np.fill_diagonal(matrix, 0)]. *)
Definition fill_diagonal (m : list (list Float.t)) : list (list Float.t) :=
  imap (λ i row, <[i := Float.Finite 0]> row) m.

(** [matrix(i, normalise, as_distance)].  The loop variable [i] of the
    outer [enumerate] hides the parameter [i]: the weight that reaches
    [synteny] is the row index. *)
Definition matrix (i : Float.t) (normalise as_distance : bool)
  : M world (list (list Float.t)) :=
  keys ← gets (λ w : world, (clusters w.1).*1);
  m ← for_each (λ '(i, one),
         for_each (λ '(j, two),
           if Nat.eqb i j then mret (Float.Finite 0)
           else synteny one two (Float.Finite (inject_Z (Z.of_nat i))))
           (enumerate keys))
         (enumerate keys);
  m' ← (if normalise then
          mx ← matrix_max m;
          mret (map (map (λ x, Float.div x mx)) m)
        else mret m);
  if as_distance then
    maximum ← (if normalise then mret (Float.Finite 1) else matrix_max m');
    mret (fill_diagonal (map (map (λ x, Float.sub maximum x)) m'))
  else mret m'.

End Store.


(** ** Serialization *)

Module Serial.

Import Store.

(** Modelled from the spec: the payloads that [to_dict] of [Gene], [Locus]
    and [Cluster] (in [clinker.classes], not part of this module) produce.
    A parent's payload names its children by bare identifier. *)
Record gene_payload : Type := GenePayload {
  pg_uid : string;
  pg_names : list string;
  pg_translation : string
}.

Record locus_payload : Type := LocusPayload {
  pl_uid : string;
  pl_genes : list string
}.

Record cluster_payload : Type := ClusterPayload {
  pc_uid : string;
  pc_name : string;
  pc_loci : list string
}.

(** [Alignment.to_dict(uids_only=True)]. *)
Record alignment_payload : Type := AlignmentPayload {
  pa_uid : string;
  pa_query : string;
  pa_target : string;
  pa_links : list string
}.

(** [Link.to_dict(uids_only=True)]: the link's own uid is not part of
    it. *)
Record link_payload : Type := LinkPayload {
  pk_query : string;
  pk_target : string;
  pk_identity : Q;
  pk_similarity : Q
}.

(** The dictionary [to_dict] returns.  [from_dict] iterates over
    ["alignments"], so that one keeps its insertion order. *)
Record serial : Type := Serial {
  order : list string;
  sclusters : gmap string cluster_payload;
  sloci : gmap string locus_payload;
  sgenes : gmap string gene_payload;
  salignments : list (string * alignment_payload);
  slinks : gmap string link_payload
}.

(** Modelled from the spec: [Gene.to_dict()]. *)
Definition Gene_to_dict (g : Gene.t) : gene_payload :=
  GenePayload (Gene.uid g) (Gene.names g) (Gene.translation g).

(** Modelled from the spec: [Locus.to_dict(uids_only=True)]. *)
Definition Locus_to_dict (l : Locus.t) : locus_payload :=
  LocusPayload (Locus.uid l) (Gene.uid <$> Locus.genes l).

(** Modelled from the spec: [Cluster.to_dict(uids_only=True)]. *)
Definition Cluster_to_dict (c : Cluster.t) : cluster_payload :=
  ClusterPayload (Cluster.uid c) (Cluster.name c)
    (Locus.uid <$> Cluster.loci c).

Definition Alignment_to_dict (a : Alignment.t) : alignment_payload :=
  AlignmentPayload (Alignment.uid a)
    (Cluster.uid (Alignment.query a)) (Cluster.uid (Alignment.target a))
    (Link.uid <$> Alignment.links a).

Definition Link_to_dict (l : Link.t) : link_payload :=
  LinkPayload (Gene.uid (Link.query l)) (Gene.uid (Link.target l))
    (Link.identity l) (Link.similarity l).

Definition put_gene (s : serial) (gene : Gene.t) : serial :=
  Serial (order s) (sclusters s) (sloci s)
    (<[Gene.uid gene := Gene_to_dict gene]> (sgenes s))
    (salignments s) (slinks s).

Definition put_locus (s : serial) (locus : Locus.t) : serial :=
  fold_left put_gene (Locus.genes locus)
    (Serial (order s) (sclusters s)
       (<[Locus.uid locus := Locus_to_dict locus]> (sloci s))
       (sgenes s) (salignments s) (slinks s)).

Definition put_cluster (s : serial) (kv : string * Cluster.t) : serial :=
  fold_left put_locus (Cluster.loci kv.2)
    (Serial (order s) (<[kv.1 := Cluster_to_dict kv.2]> (sclusters s))
       (sloci s) (sgenes s) (salignments s) (slinks s)).

Definition put_link (s : serial) (link : Link.t) : serial :=
  Serial (order s) (sclusters s) (sloci s) (sgenes s) (salignments s)
    (<[Link.uid link := Link_to_dict link]> (slinks s)).

Definition put_alignment (s : serial) (a : Alignment.t) : serial :=
  fold_left put_link (Alignment.links a)
    (Serial (order s) (sclusters s) (sloci s) (sgenes s)
       (odict_set (Alignment.uid a) (Alignment_to_dict a) (salignments s))
       (slinks s)).

(** [to_dict()]. *)
Definition to_dict (g : Globaligner) : serial :=
  let s := Serial (clusters g).*1 ∅ ∅ ∅ [] ∅ in
  let s := fold_left put_cluster (clusters g) s in
  fold_left put_alignment (alignments g) s.

(** A slot of a list, or an attribute, that [from_dict] first fills with an
    identifier and later overwrites with the object it names. *)
Inductive child (A : Type) : Type :=
  | Bare (uid : string)
  | Loaded (x : A).
Arguments Bare {A} uid.
Arguments Loaded {A} x.

Record locus_obj : Type := LocusObj {
  lo_uid : string;
  lo_genes : list (child Gene.t)
}.

Record cluster_obj : Type := ClusterObj {
  co_uid : string;
  co_name : string;
  co_loci : list (child locus_obj)
}.

Record link_obj : Type := LinkObj {
  ko_uid : string;
  ko_query : child Gene.t;
  ko_target : child Gene.t;
  ko_identity : Q;
  ko_similarity : Q
}.

Record alignment_obj : Type := AlignmentObj {
  ao_uid : string;
  ao_query : child cluster_obj;
  ao_target : child cluster_obj;
  ao_links : list (child link_obj)
}.

(** The [Globaligner] that [from_dict] fills. *)
Record loaded : Type := LoadedStore {
  ld_genes : gmap string Gene.t;
  ld_loci : gmap string locus_obj;
  ld_indices : gmap string (gmap string alignment_obj);
  ld_names : gmap string (string * string);
  ld_alignments : list alignment_obj;
  ld_clusters : list (string * cluster_obj)
}.

Definition loaded_init : loaded := LoadedStore ∅ ∅ ∅ ∅ [] [].

Definition state : Type := loaded * heap.

(** A subscript, as [list.__setitem__] sees it. *)
Inductive subscript : Type :=
  | IntKey (n : Z)
  | StrKey (s : string).

(** [l[k] = v] on a list: a string subscript is a [TypeError], an integer
    out of range an [IndexError]. *)
Definition list_setitem {S A} (l : list A) (k : subscript) (v : A)
  : M S (list A) :=
  match k with
  | StrKey _ => raise TypeError
  | IntKey n =>
      let len := Z.of_nat (length l) in
      let i := (if n <? 0 then n + len else n)%Z in
      if decide (0 ≤ i < len)%Z then mret (<[Z.to_nat i := v]> l)
      else raise IndexError
  end.

(** [d[k]] on a plain dictionary. *)
Definition dict_get {S V} (k : string) (d : gmap string V) : M S V :=
  match d !! k with
  | Some v => mret v
  | None => raise KeyError
  end.

(** A slot used as a dictionary key: an object that was already loaded is
    not among the identifier keys. *)
Definition key_of {S A} (c : child A) : M S string :=
  match c with
  | Bare uid => mret uid
  | Loaded _ => raise KeyError
  end.

(** [str(next(counter))] for the two class-level counters. *)
Definition next_alignment_uid : M state string := λ st,
  let h := st.2 in
  (Ok (pretty (alignment_id_iter h)),
   (st.1, Heap (group_attr h) (next_object h)
            (S (alignment_id_iter h)) (link_id_iter h))).

Definition next_link_uid : M state string := λ st,
  let h := st.2 in
  (Ok (pretty (link_id_iter h)),
   (st.1, Heap (group_attr h) (next_object h)
            (alignment_id_iter h) (S (link_id_iter h)))).

(** Modelled from the spec: [Gene.from_dict], a new gene object with the
    payload's fields. *)
Definition Gene_from_dict (p : gene_payload) : M state Gene.t := λ st,
  let h := st.2 in
  (Ok (Gene.Make (next_object h) (pg_uid p) (pg_names p) (pg_translation p)),
   (st.1, Heap (group_attr h) (S (next_object h))
            (alignment_id_iter h) (link_id_iter h))).

(** Modelled from the spec: [Locus.from_dict] and [Cluster.from_dict]; the
    children are still bare identifiers. *)
Definition Locus_from_dict (p : locus_payload) : locus_obj :=
  LocusObj (pl_uid p) (Bare <$> pl_genes p).

Definition Cluster_from_dict (p : cluster_payload) : cluster_obj :=
  ClusterObj (pc_uid p) (pc_name p) (Bare <$> pc_loci p).

(** [Alignment.from_dict(d)]: the payload's uid is not handed to the
    constructor, which draws a new one. *)
Definition Alignment_from_dict (p : alignment_payload)
  : M state alignment_obj :=
  uid ← next_alignment_uid;
  mret (AlignmentObj uid (Bare (pa_query p)) (Bare (pa_target p))
          (Bare <$> pa_links p)).

(** [Link.from_dict(d)]. *)
Definition Link_from_dict (p : link_payload) : M state link_obj :=
  uid ← next_link_uid;
  mret (LinkObj uid (Bare (pk_query p)) (Bare (pk_target p))
          (pk_identity p) (pk_similarity p)).

Definition with_ld_genes (f : gmap string Gene.t → gmap string Gene.t)
  : M state unit :=
  modify (λ st : state,
    let ga := st.1 in
    (LoadedStore (f (ld_genes ga)) (ld_loci ga) (ld_indices ga) (ld_names ga)
       (ld_alignments ga) (ld_clusters ga), st.2)).

Definition with_ld_loci (f : gmap string locus_obj → gmap string locus_obj)
  : M state unit :=
  modify (λ st : state,
    let ga := st.1 in
    (LoadedStore (ld_genes ga) (f (ld_loci ga)) (ld_indices ga) (ld_names ga)
       (ld_alignments ga) (ld_clusters ga), st.2)).

Definition with_ld_clusters
    (f : list (string * cluster_obj) → list (string * cluster_obj))
  : M state unit :=
  modify (λ st : state,
    let ga := st.1 in
    (LoadedStore (ld_genes ga) (ld_loci ga) (ld_indices ga) (ld_names ga)
       (ld_alignments ga) (f (ld_clusters ga)), st.2)).

(** The last four statements of the alignment loop. *)
Definition register (aln : alignment_obj) (q t : cluster_obj)
  : M state unit :=
  modify (λ st : state,
    let ga := st.1 in
    let d1 := default_get (co_uid q) (ld_indices ga) in
    let i1 := <[co_uid q := <[co_uid t := aln]> d1.1]> d1.2 in
    let d2 := default_get (co_uid t) i1 in
    let i2 := <[co_uid t := <[co_uid q := aln]> d2.1]> d2.2 in
    (LoadedStore (ld_genes ga) (ld_loci ga) i2
       (<[ao_uid aln := (co_uid q, co_uid t)]> (ld_names ga))
       (ld_alignments ga ++ [aln]) (ld_clusters ga), st.2)).

(** Body of [for gene_idx, gene_uid in enumerate(locus.genes)]. *)
Definition load_gene (d : serial) (locus : locus_obj)
    (slot : nat * child Gene.t) : M state locus_obj :=
  gene_uid ← key_of slot.2;
  payload ← dict_get gene_uid (sgenes d);
  gene ← Gene_from_dict payload;
  genes ← list_setitem (lo_genes locus) (IntKey (Z.of_nat slot.1))
             (Loaded gene);
  _ ← with_ld_genes (λ m, <[gene_uid := gene]> m);
  mret (LocusObj (lo_uid locus) genes).

(** [for x in l: acc = body(acc, x)]. *)
Fixpoint fold_each {S A B} (body : B → A → M S B) (l : list A) (acc : B)
  : M S B :=
  match l with
  | [] => mret acc
  | x :: l' => acc' ← body acc x; fold_each body l' acc'
  end.

(** Body of [for locus_idx, locus_uid in enumerate(cluster.loci)]: the
    store into [cluster.loci] is subscripted with the uid. *)
Definition load_locus (d : serial) (cluster : cluster_obj)
    (slot : nat * child locus_obj) : M state cluster_obj :=
  locus_uid ← key_of slot.2;
  payload ← dict_get locus_uid (sloci d);
  let locus := Locus_from_dict payload in
  locus ← fold_each (load_gene d) (enumerate (lo_genes locus)) locus;
  loci ← list_setitem (co_loci cluster) (StrKey locus_uid) (Loaded locus);
  _ ← with_ld_loci (λ m, <[locus_uid := locus]> m);
  mret (ClusterObj (co_uid cluster) (co_name cluster) loci).

(** Body of [for cluster_uid in d["order"]]. *)
Definition load_cluster (d : serial) (cluster_uid : string)
  : M state unit :=
  payload ← dict_get cluster_uid (sclusters d);
  let cluster := Cluster_from_dict payload in
  cluster ← fold_each (load_locus d) (enumerate (co_loci cluster)) cluster;
  with_ld_clusters (odict_set cluster_uid cluster).

(** [ga.clusters[aln.query]] and [ga._genes[link.query]]. *)
Definition cluster_of (c : child cluster_obj) : M state cluster_obj :=
  k ← key_of c;
  ga ← gets (λ st : state, st.1);
  match odict_get k (ld_clusters ga) with
  | Some x => mret x
  | None => raise KeyError
  end.

Definition gene_of (c : child Gene.t) : M state Gene.t :=
  k ← key_of c;
  ga ← gets (λ st : state, st.1);
  dict_get k (ld_genes ga).

(** Body of [for idx, uid in enumerate(aln.links)]. *)
Definition load_link (d : serial) (links : list (child link_obj))
    (slot : nat * child link_obj) : M state (list (child link_obj)) :=
  uid ← key_of slot.2;
  payload ← dict_get uid (slinks d);
  link ← Link_from_dict payload;
  query ← gene_of (ko_query link);
  target ← gene_of (ko_target link);
  list_setitem links (IntKey (Z.of_nat slot.1))
    (Loaded (LinkObj (ko_uid link) (Loaded query) (Loaded target)
               (ko_identity link) (ko_similarity link))).

(** Body of [for alignment_uid, alignment in d["alignments"].items()]. *)
Definition load_alignment (d : serial) (kv : string * alignment_payload)
  : M state unit :=
  aln ← Alignment_from_dict kv.2;
  query ← cluster_of (ao_query aln);
  target ← cluster_of (ao_target aln);
  links ← fold_each (load_link d) (enumerate (ao_links aln)) (ao_links aln);
  register (AlignmentObj (ao_uid aln) (Loaded query) (Loaded target) links)
    query target.

(** [Globaligner.from_dict(d)].  The lists inside [d] are the very lists
    the loaded objects keep, so [d] is updated in place as well; nothing in
    this module reads [d] again. *)
Definition from_dict (d : serial) : M heap loaded := λ h,
  let r :=
    (_ ← for_each (load_cluster d) (order d);
     _ ← for_each (load_alignment d) (salignments d);
     gets (λ st : state, st.1)) (loaded_init, h) in
  (r.1, r.2.2).

End Serial.

Import Identity Grouping Contiguity Store Serial.

(** ** Notions used in the statements *)

(** The homology term of [synteny]: the sum of the link identities of an
    alignment. *)
Definition homology (alignment : Alignment.t) : Q :=
  py_sum (Link.identity <$> Alignment.links alignment).

(** What the loops of [matrix] leave in row [a] at column [col.1], the
    column of the cluster [col.2]: the row index is the weight handed to
    [synteny]. *)
Definition entry_ok (g : Globaligner) (a : nat) (one : string)
    (col : nat * string) (x : Float.t) : Prop :=
  if Nat.eqb a col.1 then x = Float.Finite 0
  else ∃ alignment,
         (get_alignment one col.2 g).1 = Ok alignment
         ∧ x = Float.Finite
                 (homology alignment
                  + inject_Z (Z.of_nat a) * inject_Z (Z.of_nat 0))%Q.

(** Every pair of distinct positions of the cluster dictionary has a
    stored alignment. *)
Definition all_aligned (g : Globaligner) : Prop :=
  ∀ a b one two,
    (clusters g).*1 !! a = Some one →
    (clusters g).*1 !! b = Some two →
    a ≠ b →
    ∃ alignment, (get_alignment one two g).1 = Ok alignment.

(** Every identifier that a locus payload or a cluster payload of [d]
    names has a payload of its own in [d]. *)
Definition genes_present (d : serial) : Prop :=
  ∀ u p gu, sloci d !! u = Some p → In gu (pl_genes p) →
            is_Some (sgenes d !! gu).

Definition loci_present (d : serial) : Prop :=
  ∀ k p lu, sclusters d !! k = Some p → In lu (pc_loci p) →
            is_Some (sloci d !! lu).

(** ** Histories of a store *)

(** One call of a method that can change the store, whether it returns or
    raises: [add_clusters], [add_alignment], [get_alignment], a read of
    [_alignment_indices[k]] (as in [align_stored_clusters]) and
    [synteny]. *)
Inductive step : Globaligner → Globaligner → Prop :=
  | step_add_clusters args g :
      step g (add_clusters args g).2
  | step_add_alignment alignment g :
      step g (add_alignment alignment g).2
  | step_get_alignment one two g :
      step g (get_alignment one two g).2
  | step_indices_at k g :
      step g (indices_at k g).2
  | step_synteny one two i g h :
      step g (synteny one two i (g, h)).2.1.

(** An alignment of the clusters [a] and [b] was stored by a call of
    [add_alignment] that returned, at some point of the history of the
    store; the history may start from any store. *)
Inductive stored (a b : string) : Globaligner → Prop :=
  | stored_now alignment g g' :
      add_alignment alignment g = (Ok tt, g') →
      Cluster.uid (Alignment.query alignment) = a →
      Cluster.uid (Alignment.target alignment) = b →
      stored a b g'
  | stored_later g g' :
      stored a b g → step g g' → stored a b g'.

(** The two index entries of a pair agree and point into the list. *)
Definition indexed (a b : string) (g : Globaligner) : Prop :=
  ∃ n alignment,
    lookup2 (_alignment_indices g) a b = Some (IntIndex n)
    ∧ lookup2 (_alignment_indices g) b a = Some (IntIndex n)
    ∧ alignments g !! n = Some alignment.

(** ** The Alignment and Link classes *)

Module Records.

(** [uid if uid else str(next(counter))]: [None] and the empty string are
    both falsy. *)
Definition keeps_uid (uid : option string) : option string :=
  match uid with
  | Some EmptyString | None => None
  | Some u => Some u
  end.

(** [Link(uid, query, target, identity, similarity)]. *)
Definition Link_init (uid : option string) (query target : Gene.t)
    (identity similarity : Q) (h : heap) : Link.t * heap :=
  match keeps_uid uid with
  | Some u => (Link.Make u query target identity similarity, h)
  | None =>
      (Link.Make (pretty (link_id_iter h)) query target identity similarity,
       Heap (group_attr h) (next_object h) (alignment_id_iter h)
         (S (link_id_iter h)))
  end.

(** [Alignment(uid, query, target, links)]; [links if links else []] is
    the given list, or an empty one. *)
Definition Alignment_init (uid : option string) (query target : Cluster.t)
    (links : option (list Link.t)) (h : heap) : Alignment.t * heap :=
  let links := default [] links in
  match keeps_uid uid with
  | Some u => (Alignment.Make u query target links, h)
  | None =>
      (Alignment.Make (pretty (alignment_id_iter h)) query target links,
       Heap (group_attr h) (next_object h) (S (alignment_id_iter h))
         (link_id_iter h))
  end.

(** [alignment.add_link(query, target, identity, similarity)]: the
    alignment with the new link appended. *)
Definition add_link (a : Alignment.t) (query target : Gene.t)
    (identity similarity : Q) (h : heap) : Alignment.t * heap :=
  let r := Link_init None query target identity similarity h in
  (Alignment.Make (Alignment.uid a) (Alignment.query a) (Alignment.target a)
     (Alignment.links a ++ [r.1]),
   r.2).

(** [alignment.contains(gene)]. *)
Definition contains (a : Alignment.t) (gene : Gene.t) : bool :=
  existsb (λ link, py_in gene [Link.query link; Link.target link])
    (Alignment.links a).

(** [sum(...)] of floats with the rounding of each addition: [round]
    takes the exact result of one operation to the float that stores
    it. *)
Definition float_sum (round : Q → Q) (l : list Q) : Q :=
  fold_left (λ acc x, round (acc + x)%Q) l 0%Q.

(** [alignment.score], every operation rounded by [round]. *)
Definition score (round : Q → Q) (a : Alignment.t) : result Q :=
  match Alignment.links a with
  | [] => Raise ValueError
  | _ :: _ =>
      let total := float_sum round (Link.identity <$> Alignment.links a) in
      let count := length (Alignment.links a) in
      Ok (round (total / inject_Z (Z.of_nat count))%Q)
  end.

End Records.

(** ** Aligning two clusters *)

Section Aligning.

(** The external pairwise aligner: the text [str(aln[0])] of the best
    alignment of two translations. *)
Variable aligner : string → string → string.

(** Body of the loop over the pairs of genes; the heap holds the counter
    of link uids. *)
Definition align_genes (cutoff : Q) (alignment : Alignment.t)
    (pair : Gene.t * Gene.t) : M heap Alignment.t := λ h,
  match compute_identity
          (aligner (Gene.translation pair.1) (Gene.translation pair.2)) with
  | Raise e => (Raise e, h)
  | Ok r =>
      if Qlt_bool r.1 cutoff then (Ok alignment, h)
      else
        let st := Records.add_link alignment pair.1 pair.2 r.1 r.2 h in
        (Ok st.1, st.2)
  end.

(** The gene pairs in the order of the two nested [product] loops. *)
Definition gene_pairs (one two : Cluster.t) : list (Gene.t * Gene.t) :=
  flat_map
    (λ loci : Locus.t * Locus.t,
       list_prod (Locus.genes loci.1) (Locus.genes loci.2))
    (list_prod (Cluster.loci one) (Cluster.loci two)).

(** [Globaligner.align_clusters(one, two, cutoff)]: the store itself is
    only read for its aligner. *)
Definition align_clusters (one two : Cluster.t) (cutoff : Q)
  : M heap Alignment.t := λ h,
  let st := Records.Alignment_init None one two None h in
  fold_each (align_genes cutoff) (gene_pairs one two) st.1 st.2.

End Aligning.

(** ** Notions used in the further properties *)

(** The number of newline characters of a text. *)
Fixpoint newlines (s : string) : nat :=
  match s with
  | EmptyString => 0
  | String c rest =>
      (if Ascii.eqb c "010"%char then 1 else 0) + newlines rest
  end.

(** The column [i] of [s] holds a residue: a character that is not a gap
    character. *)
Definition residue_at (s : string) (i : nat) : bool :=
  match String.get i s with
  | Some a => negb (gap_char a)
  | None => false
  end.

(** A link that [assign_groups] does not skip. *)
Definition qualifies (threshold : Q) (link : Link.t) : bool :=
  negb (Qlt_bool (Link.identity link) threshold).

(** The group index of [gene] names a group that holds [gene]. *)
Definition member (st : list (list Gene.t) * heap) (gene : Gene.t) : Prop :=
  ∃ j group,
    group_attr st.2 !! Gene.id gene = Some j
    ∧ st.1 !! j = Some group
    ∧ py_in gene group = true.

(** [gene] sits in one of the groups. *)
Definition grouped (st : list (list Gene.t) * heap) (gene : Gene.t) : Prop :=
  ∃ i group, st.1 !! i = Some group ∧ py_in gene group = true.

(** Every gene that sits in a group has a group index that names a group
    holding it. *)
Definition covered (st : list (list Gene.t) * heap) : Prop :=
  ∀ gene, grouped st gene → member st gene.

(** A store built from [Globaligner()] by calls of the methods of
    [step]. *)
Definition reachable (g : Globaligner) : Prop := rtc step init g.

(** Every entry of the index is a position of the list of alignments. *)
Definition index_in_range (g : Globaligner) : Prop :=
  ∀ x y v, lookup2 (_alignment_indices g) x y = Some v →
           ∃ n, v = IntIndex n ∧ n < length (alignments g).

(** A computation on the store that leaves the cluster dictionary as it
    is, whether it returns or raises. *)
Definition keeps_clusters {A} (m : M Globaligner A) : Prop :=
  ∀ g, clusters (m g).2 = clusters g.

(** A stand-in for the aligner in the examples: it pairs the two
    translations column by column, without gaps. *)
Definition plain_aligner (a b : string) : string :=
  alignment_text a "" b.

(** A link that the loop of [align_clusters] may add for one of the
    pairs. *)
Definition good_link (cutoff : Q) (pairs : list (Gene.t * Gene.t))
    (link : Link.t) : Prop :=
  Qlt_bool (Link.identity link) cutoff = false
  ∧ (0 <= Link.identity link)%Q
  ∧ (Link.identity link <= Link.similarity link)%Q
  ∧ (Link.similarity link <= 1)%Q
  ∧ In (Link.query link, Link.target link) pairs.

(** Every link identifier that an alignment payload of [d] names has a
    payload of its own in [d]. *)
Definition links_present (d : serial) : Prop :=
  ∀ k p lu, In (k, p) (salignments d) → In lu (pa_links p) →
            is_Some (slinks d !! lu).

(** The two genes that a link joins. *)
Definition link_ends (link : Link.t) : Gene.t * Gene.t :=
  (Link.query link, Link.target link).

(** The pairs of neighbours of a list, from left to right: n - 1 of them
    for a list of n elements, none for a list of fewer than two. *)
Fixpoint neighbours {A} (l : list A) : list (list A) :=
  match l with
  | a :: (b :: _) as rest => [a; b] :: neighbours rest
  | _ => []
  end.

(** The number of pairs of neighbouring genes of a cluster: a locus of n
    genes has n - 1 of them, a locus without genes none. *)
Definition neighbour_count (cluster : Cluster.t) : nat :=
  sum_list ((λ locus, length (Locus.genes locus) - 1) <$> Cluster.loci cluster).

(** ** Example data *)

Module Data.

Definition h0 : heap := Heap ∅ 100 0 0.

Definition A : Gene.t := Gene.Make 1 "A" ["geneA"] "MSTK".
Definition B : Gene.t := Gene.Make 2 "B" ["geneB"] "MSTR".
Definition C : Gene.t := Gene.Make 3 "C" ["geneC"] "MSAK".
Definition D : Gene.t := Gene.Make 4 "D" ["geneD"] "MTTK".
Definition G : Gene.t := Gene.Make 5 "G" ["geneG"] "MSAK".
Definition H : Gene.t := Gene.Make 6 "H" ["geneH"] "MTTK".

Definition half : Q := 1 # 2.

(** The links (A-B, 0.5), (C-D, 0.5), (B-C, 0.5), in that order. *)
Definition chain : list Link.t :=
  [ Link.Make "0" A B half half;
    Link.Make "1" C D half half;
    Link.Make "2" B C half half ].

Definition X : Cluster.t := Cluster.Make "X" "x" [Locus.Make "lx" [A; B]].
Definition Y : Cluster.t := Cluster.Make "Y" "y" [Locus.Make "ly" [C; D]].
Definition Z : Cluster.t := Cluster.Make "Z" "z" [Locus.Make "lz" [G; H]].

(** Two alignments of the same pair of clusters, and alignments of the two
    other pairs. *)
Definition first : Alignment.t :=
  Alignment.Make "0" X Y [Link.Make "0" A C half half].
Definition second : Alignment.t :=
  Alignment.Make "1" X Y
    [Link.Make "1" A C half half; Link.Make "2" B D (1 # 3) half].
Definition xz : Alignment.t :=
  Alignment.Make "2" X Z [Link.Make "3" A G half half].
Definition yz : Alignment.t :=
  Alignment.Make "3" Y Z
    [Link.Make "4" C G 1 1; Link.Make "5" D H 1 1].

(** The store after [add_alignment(first)]. *)
Definition g1 : Globaligner := (add_alignment first init).2.

(** The store with the three pairs aligned. *)
Definition g3 : Globaligner :=
  (add_alignment yz (add_alignment xz g1).2).2.

(** Two clusters without loci and their alignment. *)
Definition E : Cluster.t := Cluster.Make "E" "e" [].
Definition F : Cluster.t := Cluster.Make "F" "f" [].
Definition ef : Alignment.t := Alignment.Make "7" E F [].
Definition g_ef : Globaligner := (add_alignment ef init).2.

End Data.

(** ** Further example data *)

Module Data2.

(** A second alignment of the clusters X and Z. *)
Definition xz2 : Alignment.t :=
  Alignment.Make "8" Data.X Data.Z
    [Link.Make "8" Data.A Data.G (3 # 4) (3 # 4);
     Link.Make "9" Data.B Data.H (1 # 2) (3 # 4)].

End Data2.

(** * Properties *)

(** ** Identity and similarity *)

Section IdentityFacts.

Variables one two : string.

Lemma fold_raise (l : list nat) (e : exn) :
  fold_left (column_at one two) l (Raise e) = Raise e.
Proof. induction l as [|i l IH]; simpl; auto. Qed.

Lemma column_cases (a b : ascii) (c : counters) :
  let c' := column a b c in
  (matches c' = matches c + 1 ∧ similar c' = similar c
     ∧ length_ c' = length_ c)%Z
  ∨ (matches c' = matches c ∧ similar c' = similar c
     ∧ length_ c' = length_ c - 1)%Z
  ∨ (matches c' = matches c ∧ similar c' = similar c + 1
     ∧ length_ c' = length_ c)%Z
  ∨ c' = c.
Proof.
  unfold column. destruct (Ascii.eqb a b).
  - destruct (negb (gap_char a)); simpl; [left|right; left]; done.
  - destruct (similar_pair a b); simpl; [right; right; left|]; auto.
Qed.

(** Every column moves at most one unit between the three counters, so
    matches and similarities never exceed the columns still counted. *)
Lemma scan_invariant (l : list nat) (c c' : counters) :
  fold_left (column_at one two) l (Ok c) = Ok c' →
  (0 ≤ matches c → 0 ≤ similar c →
   matches c + similar c + Z.of_nat (length l) ≤ length_ c →
   0 ≤ matches c' ∧ 0 ≤ similar c' ∧ matches c' + similar c' ≤ length_ c')%Z.
Proof.
  revert c. induction l as [|i l IH]; intros c Hfold Hm Hs Hl.
  - simpl in Hfold. injection Hfold as <-. simpl in Hl. lia.
  - simpl in Hfold.
    destruct (String.get i one) as [a|]; [|by rewrite fold_raise in Hfold].
    destruct (String.get i two) as [b|]; [|by rewrite fold_raise in Hfold].
    apply IH in Hfold; [done|..];
      pose proof (column_cases a b c) as Hc; simpl in Hc;
      rewrite length_cons in Hl;
      destruct Hc as [(?&?&?)|[(?&?&?)|[(?&?&?)| ->]]]; lia.
Qed.

Lemma scan_bounds (c : counters) :
  scan one two = Ok c →
  (0 ≤ matches c ∧ 0 ≤ similar c ∧ matches c + similar c ≤ length_ c)%Z.
Proof.
  unfold scan. intros H. apply scan_invariant in H; simpl; [done|lia..|].
  rewrite length_seq. lia.
Qed.

End IdentityFacts.

Lemma true_div_ok (n d : Z) (q : Q) :
  true_div n d = Ok q → d ≠ 0%Z ∧ q = (inject_Z n / inject_Z d)%Q.
Proof.
  unfold true_div. destruct (Z.eqb_spec d 0); [done|].
  intros [= <-]. done.
Qed.

Lemma div_bounds (m k d : Z) :
  (0 ≤ m → 0 ≤ k → m + k ≤ d → d ≠ 0 →
   (0 <= inject_Z m / inject_Z d)%Q
   ∧ (inject_Z m / inject_Z d <= inject_Z (m + k) / inject_Z d)%Q
   ∧ (inject_Z (m + k) / inject_Z d <= 1)%Q)%Z.
Proof.
  intros Hm Hk Hd Hnz.
  assert (0 < inject_Z d)%Q as Hpos.
  { change 0%Q with (inject_Z 0). rewrite <- Zlt_Qlt. lia. }
  repeat split.
  - apply Qle_shift_div_l; [done|]. rewrite Qmult_0_l.
    change 0%Q with (inject_Z 0). rewrite <- Zle_Qle. done.
  - apply Qle_shift_div_l; [done|].
    unfold Qdiv. rewrite <- Qmult_assoc, (Qmult_comm (/ _)),
      Qmult_inv_r, Qmult_1_r; [|by intros E; rewrite E in Hpos].
    rewrite <- Zle_Qle. lia.
  - apply Qle_shift_div_r; [done|]. rewrite Qmult_1_l.
    rewrite <- Zle_Qle. lia.
Qed.

(** C7: on every pair of equal-length gapped strings for which the
    calculation returns a pair (identity, similarity), that pair satisfies
    0 <= identity <= similarity <= 1. *)
Theorem identity_similarity_bounds (one two : string) (identity similarity : Q) :
  String.length one = String.length two →
  identity_of_strings one two = Ok (identity, similarity) →
  (0 <= identity)%Q ∧ (identity <= similarity)%Q ∧ (similarity <= 1)%Q.
Proof.
  intros _. unfold identity_of_strings.
  destruct (scan one two) as [c|] eqn:Hscan; [|done]. simpl.
  destruct (true_div (matches c) (length_ c)) as [i|] eqn:Hi; [|done].
  destruct (true_div (matches c + similar c) (length_ c)) as [s|] eqn:Hs;
    [|done].
  simpl. intros [= <- <-].
  apply true_div_ok in Hi as [Hnz ->]. apply true_div_ok in Hs as [_ ->].
  apply scan_bounds in Hscan as (Hm & Hk & Hd).
  by apply div_bounds.
Qed.

Lemma identity_similarity_bounds_witness :
  ∃ identity similarity,
    identity_of_strings "MSAK" "MSTR" = Ok (identity, similarity)
    ∧ (0 <= identity)%Q ∧ (identity <= similarity)%Q
    ∧ (similarity <= 1)%Q.
Proof.
  exists (2 # 4)%Q, (3 # 4)%Q. split; [reflexivity|].
  apply (identity_similarity_bounds "MSAK" "MSTR"); reflexivity.
Defined.

(** C6: on "MSTK"/"MSTK" identity and similarity are both 1.  On
    "MS-K"/"MSTK" the column holding the one gap is not excluded: the
    loop ends with 3 matches and a length that is still 4, so that identity
    is 3/4 and not 1. *)
Theorem compute_identity_scenarios :
  (∃ identity similarity,
      compute_identity (alignment_text "MSTK" "||||" "MSTK")
        = Ok (identity, similarity)
      ∧ (identity == 1)%Q ∧ (similarity == 1)%Q)
  ∧ scan "MS-K" "MSTK" = Ok (Counters 3 0 4)
  ∧ compute_identity (alignment_text "MS-K" "||-|" "MSTK")
      = Ok (3 # 4, 3 # 4)%Q
  ∧ ¬ (3 # 4 == 1)%Q.
Proof.
  split; [|split; [|split]].
  - exists (4 # 4)%Q, (4 # 4)%Q. split; [reflexivity|]. split; reflexivity.
  - reflexivity.
  - reflexivity.
  - discriminate.
Qed.

Lemma scan_gap_columns (one two : string) (l : list nat) (c : counters) :
  forallb (gap_column one two) l = true →
  fold_left (column_at one two) l (Ok c)
  = Ok (Counters (matches c) (similar c) (length_ c - Z.of_nat (length l))).
Proof.
  revert c. induction l as [|i l IH]; intros c Hall.
  - simpl. destruct c; simpl. do 2 f_equal. lia.
  - simpl in Hall. apply andb_prop in Hall as [Hi Hl].
    simpl. unfold gap_column in Hi.
    destruct (String.get i one) as [a|]; [|done].
    destruct (String.get i two) as [b|]; [|done].
    apply andb_prop in Hi as [Hab Hgap].
    unfold column. rewrite Hab, Hgap. simpl.
    rewrite IH by done. simpl. do 2 f_equal. lia.
Qed.

(** C9: the calculation is not total.  For every pair of equal-length
    strings in which every column is a gap aligned to a gap (both strings
    hold the same gap character there), the pair of empty strings
    included, the effective length reaches 0 and the final division raises
    ZeroDivisionError. *)
Theorem identity_of_gap_columns_raises (one two : string) :
  String.length one = String.length two →
  all_gap_columns one two = true →
  (∃ c, scan one two = Ok c ∧ length_ c = 0%Z)
  ∧ identity_of_strings one two = Raise ZeroDivisionError.
Proof.
  intros _ Hall. unfold all_gap_columns in Hall.
  assert (scan one two = Ok (Counters 0 0 0)) as Hscan.
  { unfold scan. rewrite scan_gap_columns by done. simpl.
    rewrite length_seq. do 2 f_equal. lia. }
  split.
  - exists (Counters 0 0 0). done.
  - unfold identity_of_strings. rewrite Hscan. reflexivity.
Qed.

Lemma identity_of_gap_columns_raises_witness :
  identity_of_strings "" "" = Raise ZeroDivisionError
  ∧ identity_of_strings "--.-" "--.-" = Raise ZeroDivisionError.
Proof.
  split.
  - apply (identity_of_gap_columns_raises "" ""); reflexivity.
  - apply (identity_of_gap_columns_raises "--.-" "--.-"); reflexivity.
Defined.

(** ** Homology grouping *)

(** C1: on the links (A-B, 0.5), (C-D, 0.5), (B-C, 0.5) at threshold 0.3
    the loop ends with the two groups [A, B, C] and [C, D]: the third link
    is absorbed by the first group alone, D stays in the second group, and
    the genes C and D that the second link joins carry different group
    indices. *)
Theorem assign_groups_chain :
  (grouping Data.chain default_threshold Data.h0).1
    = [[Data.A; Data.B; Data.C]; [Data.C; Data.D]]
  ∧ (let h := assign_groups Data.chain default_threshold Data.h0 in
     group_attr h !! Gene.id Data.A = Some 0
     ∧ group_attr h !! Gene.id Data.B = Some 0
     ∧ group_attr h !! Gene.id Data.C = Some 0
     ∧ group_attr h !! Gene.id Data.D = Some 1).
Proof. vm_compute. repeat split. Qed.

(** ** The alignment store *)

Ltac munfold :=
  unfold mbind, M_bind, mret, M_ret, gets, modify, raise in *.

Lemma get_alignment_missing (g : Globaligner) (one two : string) :
  lookup2 (_alignment_indices g) one two = None →
  get_alignment one two g
  = (Raise KeyError,
     match _alignment_indices g !! one with
     | Some _ => g
     | None => with_indices (λ d, <[one := ∅]> d) g
     end).
Proof.
  unfold lookup2, get_alignment, indices_at, default_get. munfold.
  destruct g as [gs ls ix ns al cl]; simpl.
  destruct (ix !! one) as [inner|] eqn:Hone; simpl.
  - intros ->. reflexivity.
  - intros _. rewrite lookup_empty. reflexivity.
Qed.

(** C10 as stated fails: in the store that holds one alignment of X and Y,
    no alignment of X and Z is stored, and the failing lookup leaves the
    store as it was. *)
Lemma get_alignment_failure_keeps_state :
  ¬ (∀ g one two,
       lookup2 (_alignment_indices g) one two = None →
       (get_alignment one two g).1 = Raise KeyError
       ∧ (get_alignment one two g).2 ≠ g).
Proof.
  intros H. destruct (H Data.g1 "X" "Z") as [_ Hne]; [reflexivity|].
  apply Hne. vm_compute. reflexivity.
Qed.

(** C10, amended: a lookup of a pair for which no alignment is stored
    raises KeyError; when the first argument has no entry in
    [_alignment_indices] the call also inserts an empty entry for it, so
    that the state changes, and when the first argument has an entry the
    state is left as it was. *)
Theorem get_alignment_failure (g : Globaligner) (one two : string) :
  lookup2 (_alignment_indices g) one two = None →
  (get_alignment one two g).1 = Raise KeyError
  ∧ (_alignment_indices g !! one = None →
       (get_alignment one two g).2 = with_indices (λ d, <[one := ∅]> d) g
       ∧ _alignment_indices (get_alignment one two g).2 !! one = Some ∅
       ∧ (get_alignment one two g).2 ≠ g)
  ∧ (is_Some (_alignment_indices g !! one) →
       (get_alignment one two g).2 = g).
Proof.
  intros Hnone. rewrite (get_alignment_missing _ _ _ Hnone). simpl.
  split; [done|]. split.
  - intros Hone. rewrite Hone. split; [done|]. split.
    + destruct g; simpl. apply lookup_insert_eq.
    + intros Heq. apply (f_equal (λ g, _alignment_indices g !! one)) in Heq.
      destruct g; simpl in *. rewrite lookup_insert_eq in Heq. congruence.
  - intros [inner Hone]. rewrite Hone. done.
Qed.

Lemma get_alignment_failure_witness :
  (get_alignment "X" "Y" init).1 = Raise KeyError
  ∧ _alignment_indices (get_alignment "X" "Y" init).2 !! "X" = Some ∅
  ∧ (get_alignment "X" "Z" Data.g1).2 = Data.g1.
Proof.
  pose proof (get_alignment_failure init "X" "Y" eq_refl) as (H1 & H2 & _).
  pose proof (get_alignment_failure Data.g1 "X" "Z" eq_refl) as (_ & _ & H3).
  split; [exact H1|]. split.
  - apply H2. reflexivity.
  - apply H3. vm_compute. eauto.
Defined.

(** *** Both directions of the index *)

Lemma lookup2_default_get {V} (k x y : string)
    (d : gmap string (gmap string V)) :
  lookup2 (default_get k d).2 x y = lookup2 d x y.
Proof.
  unfold lookup2, default_get.
  destruct (d !! k) as [inner|] eqn:Hk; simpl; [done|].
  destruct (decide (k = x)) as [->|Hne].
  - rewrite lookup_insert_eq, Hk. simpl. apply lookup_empty.
  - by rewrite lookup_insert_ne.
Qed.

Lemma default_get_inner {V} (k y : string)
    (d : gmap string (gmap string V)) :
  (default_get k d).1 !! y = lookup2 d k y.
Proof.
  unfold lookup2, default_get.
  destruct (d !! k) as [inner|]; simpl; [done|]. apply lookup_empty.
Qed.

Lemma lookup2_set {V} (k1 k2 x y : string) (v : V)
    (d : gmap string (gmap string V)) :
  lookup2 (<[k1 := <[k2 := v]> (default_get k1 d).1]> (default_get k1 d).2)
    x y
  = if decide (x = k1 ∧ y = k2) then Some v else lookup2 d x y.
Proof.
  unfold lookup2 at 1.
  destruct (decide (x = k1)) as [->|Hx].
  - rewrite lookup_insert_eq. simpl.
    destruct (decide (y = k2)) as [->|Hy].
    + rewrite lookup_insert_eq. by rewrite decide_True.
    + rewrite lookup_insert_ne by done. rewrite default_get_inner.
      rewrite decide_False; [done|]. by intros [_ ?].
  - rewrite lookup_insert_ne by done.
    fold (lookup2 (default_get k1 d).2 x y). rewrite lookup2_default_get.
    rewrite decide_False; [done|]. by intros [? _].
Qed.

Lemma indices_at_eq (k : string) (g : Globaligner) :
  indices_at k g
  = (Ok (default_get k (_alignment_indices g)).1,
     with_indices (λ _, (default_get k (_alignment_indices g)).2) g).
Proof. reflexivity. Qed.

Lemma indices_set_eq (k1 k2 : string) (v : index_value) (g : Globaligner) :
  indices_set k1 k2 v g
  = (Ok tt,
     with_indices
       (λ d, <[k1 := <[k2 := v]> (default_get k1 d).1]> (default_get k1 d).2)
       g).
Proof. destruct g. reflexivity. Qed.

(** [add_clusters] does not touch the index or the list of alignments. *)
Lemma index_locus_fields (locus : Locus.t) (g : Globaligner) :
  _alignment_indices (index_locus g locus) = _alignment_indices g
  ∧ alignments (index_locus g locus) = alignments g.
Proof.
  unfold index_locus.
  set (g0 := with_loci _ g).
  assert (_alignment_indices g0 = _alignment_indices g
          ∧ alignments g0 = alignments g) as H0 by done.
  clearbody g0. revert g0 H0.
  induction (Locus.genes locus) as [|gene genes IH]; intros g0 H0; [done|].
  simpl. apply IH. done.
Qed.

Lemma index_loci_fields (loci : list Locus.t) (g : Globaligner) :
  _alignment_indices (fold_left index_locus loci g) = _alignment_indices g
  ∧ alignments (fold_left index_locus loci g) = alignments g.
Proof.
  revert g. induction loci as [|locus loci IH]; intros g; [done|].
  simpl. destruct (IH (index_locus g locus)) as (-> & ->).
  apply index_locus_fields.
Qed.

Lemma add_cluster_fields (arg : pyarg) (g : Globaligner) :
  _alignment_indices (add_cluster arg g).2 = _alignment_indices g
  ∧ alignments (add_cluster arg g).2 = alignments g.
Proof.
  destruct arg as [c|]; [|done]. unfold add_cluster. munfold. simpl.
  destruct (index_loci_fields (Cluster.loci c)
              (with_clusters (odict_set (Cluster.uid c) c) g))
    as (-> & ->).
  done.
Qed.

Lemma for_each_add_cluster_fields (args : list pyarg) (g : Globaligner) :
  _alignment_indices (for_each add_cluster args g).2 = _alignment_indices g
  ∧ alignments (for_each add_cluster args g).2 = alignments g.
Proof.
  revert g. induction args as [|arg args IH]; intros g; [done|].
  simpl. munfold.
  pose proof (add_cluster_fields arg g) as Harg.
  destruct (add_cluster arg g) as [[[]|e] g1]; simpl in *; [|done].
  pose proof (IH g1) as Hrest.
  destruct (for_each add_cluster args g1) as [[ys|e] g2]; simpl in *;
    destruct Hrest as [-> ->]; done.
Qed.

Lemma add_clusters_fields (args : list pyarg) (g : Globaligner) :
  _alignment_indices (add_clusters args g).2 = _alignment_indices g
  ∧ alignments (add_clusters args g).2 = alignments g.
Proof.
  unfold add_clusters. munfold.
  pose proof (for_each_add_cluster_fields args g) as H.
  destruct (for_each add_cluster args g) as [[ys|e] g']; done.
Qed.

Lemma add_clusters_two (q t : Cluster.t) (g : Globaligner) :
  (add_clusters [ACluster q; ACluster t] g).1 = Ok tt.
Proof. reflexivity. Qed.

Lemma add_alignment_view (a : Alignment.t) (g g' : Globaligner)
    (r : result unit) :
  let q := Cluster.uid (Alignment.query a) in
  let t := Cluster.uid (Alignment.target a) in
  add_alignment a g = (r, g') →
  (∀ m, is_Some (alignments g !! m) → is_Some (alignments g' !! m))
  ∧ ((r = Ok tt
      ∧ ∃ n, alignments g' !! n = Some a
          ∧ ∀ x y, lookup2 (_alignment_indices g') x y
                   = if decide ((x = t ∧ y = q) ∨ (x = q ∧ y = t))
                     then Some (IntIndex n)
                     else lookup2 (_alignment_indices g) x y)
     ∨ ((∃ e, r = Raise e)
        ∧ ∀ x y, lookup2 (_alignment_indices g') x y
                 = lookup2 (_alignment_indices g) x y)).
Proof.
  intros q t. unfold add_alignment. munfold. fold q t.
  pose proof (add_clusters_fields
                [ACluster (Alignment.query a); ACluster (Alignment.target a)] g)
    as [Hix Hal].
  pose proof (add_clusters_two (Alignment.query a) (Alignment.target a) g)
    as Hok.
  destruct (add_clusters _ g) as [r1 g1]. simpl in Hix, Hal, Hok. subst r1.
  rewrite indices_at_eq. cbv beta iota. rewrite default_get_inner.
  rewrite Hix.
  set (g2 := with_indices _ g1).
  assert (alignments g2 = alignments g) as Hal2 by (by destruct g1).
  assert (∀ x y, lookup2 (_alignment_indices g2) x y
                 = lookup2 (_alignment_indices g) x y) as Hix2.
  { intros x y. subst g2. destruct g1; simpl in *. subst.
    apply lookup2_default_get. }
  clearbody g2. clear Hix Hal g1.
  assert (∀ n g3,
    (∀ m, is_Some (alignments g !! m) → is_Some (alignments g3 !! m)) →
    alignments g3 !! n = Some a →
    _alignment_indices g3 = _alignment_indices g2 →
    update_mappings q t n g3 = (r, g') →
    (∀ m, is_Some (alignments g !! m) → is_Some (alignments g' !! m))
    ∧ ((r = Ok tt
        ∧ ∃ n, alignments g' !! n = Some a
            ∧ ∀ x y, lookup2 (_alignment_indices g') x y
                     = if decide ((x = t ∧ y = q) ∨ (x = q ∧ y = t))
                       then Some (IntIndex n)
                       else lookup2 (_alignment_indices g) x y)
       ∨ ((∃ e, r = Raise e)
          ∧ ∀ x y, lookup2 (_alignment_indices g') x y
                   = lookup2 (_alignment_indices g) x y))) as Hfinish.
  { intros n g3 Hkeep Hn Hix3. unfold update_mappings. munfold.
    rewrite !indices_set_eq.
    intros [= <- <-]. destruct g3 as [gs ls ix ns al cl]; simpl in *.
    split; [done|]. left. split; [done|]. exists n. split; [done|].
    intros x y. rewrite lookup2_set.
    destruct (decide (x = t ∧ y = q)) as [Htq|Htq].
    - rewrite decide_True by auto. done.
    - rewrite lookup2_set. subst ix. rewrite Hix2.
      destruct (decide (x = q ∧ y = t)) as [Hqt|Hqt].
      + rewrite decide_True by auto. done.
      + rewrite decide_False by (intros [?|?]; done). done. }
  destruct (lookup2 (_alignment_indices g) q t) as [[[|n]|]|] eqn:Hidx;
    simpl.
  - (* index 0 *)
    apply (Hfinish (length (alignments g2))
             (with_alignments (λ l, l ++ [a]) g2)).
    + destruct g2; simpl in *. subst. intros m Hm.
      rewrite lookup_app_l; [done|]. by apply lookup_lt_is_Some.
    + destruct g2; simpl in *. subst.
      rewrite lookup_app_r by done. by rewrite Nat.sub_diag.
    + by destruct g2.
  - (* a position other than 0 *)
    munfold. simpl. rewrite Hal2.
    destruct (decide (S n < length (alignments g))) as [Hlt|Hge].
    + apply (Hfinish (S n) (with_alignments (λ l, <[S n := a]> l) g2)).
      * destruct g2; simpl in *. subst. intros m Hm.
        apply lookup_lt_is_Some. rewrite length_insert.
        by apply lookup_lt_is_Some.
      * destruct g2; simpl in *. subst. by apply list_lookup_insert_eq.
      * by destruct g2.
    + intros [= <- <-]. rewrite Hal2. split; [done|]. right. eauto.
  - (* an object *)
    intros [= <- <-]. rewrite Hal2. split; [done|]. right. eauto.
  - (* no entry *)
    apply (Hfinish (length (alignments g2))
             (with_alignments (λ l, l ++ [a]) g2)).
    + destruct g2; simpl in *. subst. intros m Hm.
      rewrite lookup_app_l; [done|]. by apply lookup_lt_is_Some.
    + destruct g2; simpl in *. subst.
      rewrite lookup_app_r by done. by rewrite Nat.sub_diag.
    + by destruct g2.
Qed.

Lemma update_mappings_alignments (q t : string) (n : nat) (g : Globaligner) :
  (update_mappings q t n g).1 = Ok tt
  ∧ alignments (update_mappings q t n g).2 = alignments g.
Proof.
  unfold update_mappings. munfold. rewrite !indices_set_eq.
  by destruct g.
Qed.

(** The list of alignments after [add_alignment], by the entry that the
    index holds for the pair. *)
Lemma add_alignment_alignments (a : Alignment.t) (g : Globaligner) :
  let q := Cluster.uid (Alignment.query a) in
  let t := Cluster.uid (Alignment.target a) in
  match lookup2 (_alignment_indices g) q t with
  | Some (IntIndex (S n)) =>
      if decide (S n < length (alignments g)) then
        (add_alignment a g).1 = Ok tt
        ∧ alignments (add_alignment a g).2 = <[S n := a]> (alignments g)
      else
        (add_alignment a g).1 = Raise IndexError
        ∧ alignments (add_alignment a g).2 = alignments g
  | Some (ObjIndex _) =>
      (add_alignment a g).1 = Raise TypeError
      ∧ alignments (add_alignment a g).2 = alignments g
  | Some (IntIndex 0) | None =>
      (add_alignment a g).1 = Ok tt
      ∧ alignments (add_alignment a g).2 = alignments g ++ [a]
  end.
Proof.
  intros q t. unfold add_alignment. munfold. fold q t.
  pose proof (add_clusters_fields
                [ACluster (Alignment.query a); ACluster (Alignment.target a)] g)
    as [Hix Hal].
  pose proof (add_clusters_two (Alignment.query a) (Alignment.target a) g)
    as Hok.
  destruct (add_clusters _ g) as [r1 g1]. simpl in Hix, Hal, Hok. subst r1.
  rewrite indices_at_eq. cbv beta iota. rewrite default_get_inner.
  rewrite Hix.
  set (g2 := with_indices _ g1).
  assert (alignments g2 = alignments g) as Hal2 by (by destruct g1).
  clearbody g2. clear Hix Hal g1.
  destruct (lookup2 (_alignment_indices g) q t) as [[[|n]|]|]; simpl.
  - destruct (update_mappings_alignments q t (length (alignments g2))
                (with_alignments (λ l, l ++ [a]) g2)) as [Hr Ha].
    destruct (update_mappings _ _ _ _) as [r g']. simpl in *. subst r.
    split; [done|]. congruence.
  - munfold. simpl. rewrite Hal2.
    destruct (decide (S n < length (alignments g))) as [Hlt|Hge].
    + destruct (update_mappings_alignments q t (S n)
                  (with_alignments (λ l, <[S n := a]> l) g2)) as [Hr Ha].
      destruct (update_mappings _ _ _ _) as [r g']. simpl in *. subst r.
      split; [done|]. congruence.
    + done.
  - done.
  - destruct (update_mappings_alignments q t (length (alignments g2))
                (with_alignments (λ l, l ++ [a]) g2)) as [Hr Ha].
    destruct (update_mappings _ _ _ _) as [r g']. simpl in *. subst r.
    split; [done|]. congruence.
Qed.

(** C4: on an empty store, adding two alignments of the same unordered
    pair of clusters leaves both in the list.  The first one sits at
    position 0, which the test [if index] takes for a missing entry, so the
    second one is appended and the store holds two alignments of one
    pair. *)
Theorem add_alignment_twice (first second : Alignment.t) :
  let q1 := Cluster.uid (Alignment.query first) in
  let t1 := Cluster.uid (Alignment.target first) in
  let q2 := Cluster.uid (Alignment.query second) in
  let t2 := Cluster.uid (Alignment.target second) in
  (q2 = q1 ∧ t2 = t1) ∨ (q2 = t1 ∧ t2 = q1) →
  (add_alignment first init).1 = Ok tt
  ∧ (add_alignment second (add_alignment first init).2).1 = Ok tt
  ∧ alignments (add_alignment second (add_alignment first init).2).2
    = [first; second].
Proof.
  intros q1 t1 q2 t2 Hpair.
  pose proof (add_alignment_alignments first init) as H1.
  simpl in H1. unfold lookup2 in H1. rewrite lookup_empty in H1. simpl in H1.
  destruct H1 as [Hr1 Ha1].
  destruct (add_alignment first init) as [r1 g1] eqn:Hadd. simpl in *.
  subst r1. split; [done|].
  apply add_alignment_view in Hadd as [_ [(_ & n & Hn & Hlook)|([e ?] & _)]];
    [|done].
  rewrite Ha1 in Hn. destruct n as [|n]; [|done].
  pose proof (add_alignment_alignments second g1) as H2.
  simpl in H2. fold q2 t2 in H2. rewrite Hlook in H2.
  fold q1 t1 in H2.
  rewrite decide_True in H2 by (destruct Hpair as [[??]|[??]]; auto).
  rewrite Ha1 in H2. done.
Qed.

Lemma add_alignment_twice_witness :
  alignments (add_alignment Data.second (add_alignment Data.first init).2).2
  = [Data.first; Data.second].
Proof.
  apply (add_alignment_twice Data.first Data.second).
  left. split; reflexivity.
Defined.

(** An alignment stored at a position other than 0 is overwritten in
    place. *)
Lemma add_alignment_overwrites (a : Alignment.t) (g : Globaligner) (n : nat) :
  lookup2 (_alignment_indices g)
    (Cluster.uid (Alignment.query a)) (Cluster.uid (Alignment.target a))
  = Some (IntIndex (S n)) →
  S n < length (alignments g) →
  (add_alignment a g).1 = Ok tt
  ∧ alignments (add_alignment a g).2 = <[S n := a]> (alignments g).
Proof.
  intros Hix Hlt. pose proof (add_alignment_alignments a g) as H.
  simpl in H. rewrite Hix in H. by rewrite decide_True in H.
Qed.

Lemma get_alignment_state (one two : string) (g : Globaligner) :
  (get_alignment one two g).2 = (indices_at one g).2.
Proof.
  unfold get_alignment, alignments_getitem. munfold.
  rewrite indices_at_eq. cbv beta iota.
  destruct (_ !! two) as [[n|]|]; simpl; [|done..].
  match goal with |- context [?l !! n] => destruct (l !! n) end; done.
Qed.

Lemma get_alignment_indexed (g : Globaligner) (a b : string) (n : nat)
    (alignment : Alignment.t) :
  lookup2 (_alignment_indices g) a b = Some (IntIndex n) →
  alignments g !! n = Some alignment →
  get_alignment a b g = (Ok alignment, g).
Proof.
  intros Hix Hn. unfold get_alignment, alignments_getitem. munfold.
  rewrite indices_at_eq.
  cbv beta iota. rewrite default_get_inner, Hix. simpl.
  unfold lookup2 in Hix. unfold default_get.
  destruct (_alignment_indices g !! a) as [inner|]; [|done].
  destruct g; simpl in *. by rewrite Hn.
Qed.

Lemma synteny_store (one two : string) (i : Float.t) (g : Globaligner)
    (h : heap) :
  (synteny one two i (g, h)).2.1 = (get_alignment one two g).2.
Proof.
  unfold synteny, on_store, on_heap, cluster_at. munfold. simpl.
  destruct (get_alignment one two g) as [[alignment|e] g1]; simpl; [|done].
  destruct (odict_get one (clusters g1)); simpl; [|done].
  destruct (odict_get two (clusters g1)); simpl; done.
Qed.

Lemma indexed_indices_at (a b k : string) (g : Globaligner) :
  indexed a b g → indexed a b (indices_at k g).2.
Proof.
  intros (n & alignment & Hab & Hba & Hn). exists n, alignment.
  rewrite indices_at_eq. destruct g; simpl in *.
  by rewrite !lookup2_default_get.
Qed.

Lemma indexed_add_alignment (a b : string) (alignment : Alignment.t)
    (g : Globaligner) :
  indexed a b g → indexed a b (add_alignment alignment g).2.
Proof.
  intros (n & old & Hab & Hba & Hn).
  destruct (add_alignment alignment g) as [r g'] eqn:Hadd.
  apply add_alignment_view in Hadd as [Hkeep Hcases]. simpl.
  destruct (Hkeep n) as [kept Hkept]; [by eauto|].
  destruct Hcases as [(_ & n' & Hn' & Hlook)|(_ & Hlook)].
  - set (q := Cluster.uid (Alignment.query alignment)) in *.
    set (t := Cluster.uid (Alignment.target alignment)) in *.
    destruct (decide ((a = t ∧ b = q) ∨ (a = q ∧ b = t))) as [Hpair|Hpair].
    + exists n', alignment. rewrite !Hlook.
      rewrite decide_True by done.
      rewrite decide_True by (destruct Hpair as [[??]|[??]]; auto).
      done.
    + exists n, kept. rewrite !Hlook.
      rewrite decide_False by done.
      rewrite decide_False
        by (intros [[??]|[??]]; apply Hpair; auto).
      done.
  - exists n, kept. by rewrite !Hlook.
Qed.

Lemma indexed_step (a b : string) (g g' : Globaligner) :
  step g g' → indexed a b g → indexed a b g'.
Proof.
  intros Hstep Hix. destruct Hstep.
  - destruct Hix as (n & alignment & Hab & Hba & Hn).
    destruct (add_clusters_fields args g) as [Hi Ha].
    exists n, alignment. by rewrite Hi, Ha.
  - by apply indexed_add_alignment.
  - rewrite get_alignment_state. by apply indexed_indices_at.
  - by apply indexed_indices_at.
  - rewrite synteny_store, get_alignment_state. by apply indexed_indices_at.
Qed.

Lemma stored_indexed (a b : string) (g : Globaligner) :
  stored a b g → indexed a b g.
Proof.
  induction 1 as [alignment g g' Hadd Ha Hb|g g' _ IH Hstep].
  - apply add_alignment_view in Hadd as [_ [(_ & n & Hn & Hlook)|([e ?] & _)]];
      [|done].
    exists n, alignment. rewrite !Hlook, Ha, Hb.
    rewrite !decide_True by auto. done.
  - by apply (indexed_step a b g g').
Qed.

(** C8: once an alignment of the clusters a and b has been stored by
    add_alignment, get_alignment(a, b) and get_alignment(b, a) both return,
    and they return the same alignment, whatever calls were made on the
    store since. *)
Theorem get_alignment_both_directions (a b : string) (g : Globaligner) :
  stored a b g →
  ∃ alignment,
    get_alignment a b g = (Ok alignment, g)
    ∧ get_alignment b a g = (Ok alignment, g).
Proof.
  intros Hst. apply stored_indexed in Hst as (n & alignment & Hab & Hba & Hn).
  exists alignment. split; by apply (get_alignment_indexed g _ _ n).
Qed.

Lemma get_alignment_both_directions_witness :
  ∃ alignment,
    get_alignment "X" "Y" Data.g3 = (Ok alignment, Data.g3)
    ∧ get_alignment "Y" "X" Data.g3 = (Ok alignment, Data.g3).
Proof.
  apply (get_alignment_both_directions "X" "Y" Data.g3).
  apply (stored_later "X" "Y" (add_alignment Data.xz Data.g1).2);
    [|apply step_add_alignment].
  apply (stored_later "X" "Y" Data.g1); [|apply step_add_alignment].
  apply (stored_now "X" "Y" Data.first init);
    [vm_compute; reflexivity|reflexivity..].
Defined.

(** ** Synteny *)

(** *** Generator objects are pairwise distinct *)

Lemma new_generators_ids (genes : list Gene.t) (idxs : list nat)
    (st : list generator * heap) :
  let st' :=
    fold_left
      (λ st i,
         let r := new_generator (take 2 (drop i genes)) st.2 in
         (st.1 ++ [r.1], r.2))
      idxs st in
  (next_object st.2 ≤ next_object st'.2)%nat
  ∧ ∀ p, In p st'.1 →
         In p st.1 ∨ (next_object st.2 ≤ gen_id p < next_object st'.2)%nat.
Proof.
  revert st. induction idxs as [|i idxs IH]; intros st; simpl.
  - split; [done|]. auto.
  - specialize (IH (st.1 ++ [(new_generator (take 2 (drop i genes)) st.2).1],
                    (new_generator (take 2 (drop i genes)) st.2).2)).
    simpl in IH. destruct IH as [Hle Hin]. split; [lia|].
    intros p Hp. apply Hin in Hp as [Hp|Hp].
    + apply in_app_or in Hp as [Hp|[<-|[]]]; [by left|].
      right. simpl. lia.
    + right. lia.
Qed.

Lemma locus_pairs_ids (st : list generator * heap) (locus : Locus.t) :
  (next_object st.2 ≤ next_object (locus_pairs st locus).2)%nat
  ∧ ∀ p, In p (locus_pairs st locus).1 →
         In p st.1
         ∨ (next_object st.2 ≤ gen_id p
            < next_object (locus_pairs st locus).2)%nat.
Proof. apply new_generators_ids. Qed.

Lemma loci_pairs_ids (loci : list Locus.t) (st : list generator * heap) :
  (next_object st.2 ≤ next_object (fold_left locus_pairs loci st).2)%nat
  ∧ ∀ p, In p (fold_left locus_pairs loci st).1 →
         In p st.1
         ∨ (next_object st.2 ≤ gen_id p
            < next_object (fold_left locus_pairs loci st).2)%nat.
Proof.
  revert st. induction loci as [|locus loci IH]; intros st; simpl.
  - split; [done|]. auto.
  - destruct (IH (locus_pairs st locus)) as [Hle Hin].
    destruct (locus_pairs_ids st locus) as [Hle1 Hin1].
    split; [lia|]. intros p Hp.
    apply Hin in Hp as [Hp|Hp]; [|right; lia].
    apply Hin1 in Hp as [Hp|Hp]; [by left|right; lia].
Qed.

(** Every object that [get_pairs] returns was made during the call. *)
Lemma get_pairs_ids (cluster : Cluster.t) (h : heap) :
  (next_object h ≤ next_object (get_pairs cluster h).2)%nat
  ∧ ∀ p, In p (get_pairs cluster h).1 →
         (next_object h ≤ gen_id p
          < next_object (get_pairs cluster h).2)%nat.
Proof.
  destruct (loci_pairs_ids (Cluster.loci cluster) ([], h)) as [Hle Hin].
  split; [done|]. intros p Hp. by apply Hin in Hp as [[]|Hp].
Qed.

Lemma py_set_subset {A} `{PyEq A} (l : list A) (x : A) :
  In x (py_set l) → In x l.
Proof.
  induction l as [|y l IH]; simpl; [done|].
  intros [->|Hx]; [by left|].
  apply filter_In in Hx as [Hx _]. right. by apply IH.
Qed.

Lemma filter_none {A} (f : A → bool) (l : list A) :
  (∀ x, In x l → f x = false) → List.filter f l = [].
Proof.
  induction l as [|x l IH]; intros Hf; simpl; [done|].
  rewrite Hf by (by left). apply IH. intros y Hy. apply Hf. by right.
Qed.

Lemma compare_pairs_disjoint {A} `{PyEq A} (one two : list A) :
  (∀ p, In p one → py_in p two = false) → compare_pairs one two = 0.
Proof.
  intros Hdis. unfold compare_pairs. rewrite filter_none; [done|].
  intros p Hp. apply Hdis. by apply py_set_subset.
Qed.

(** The contiguity term: the objects of two calls of [get_pairs] are never
    equal, so the intersection is empty. *)
Lemma contiguity_zero (one_cluster two_cluster : Cluster.t) (h : heap) :
  compare_pairs (get_pairs one_cluster h).1
    (get_pairs two_cluster (get_pairs one_cluster h).2).1 = 0.
Proof.
  apply compare_pairs_disjoint. intros p Hp.
  destruct (get_pairs_ids one_cluster h) as [_ Hone].
  destruct (get_pairs_ids two_cluster (get_pairs one_cluster h).2)
    as [_ Htwo].
  apply Hone in Hp. unfold py_in.
  apply not_true_is_false. intros Hex.
  apply existsb_exists in Hex as (p' & Hp' & Heq).
  apply Htwo in Hp'. unfold py_eqb, generator_pyeq in Heq.
  apply Nat.eqb_eq in Heq. lia.
Qed.

Lemma get_alignment_ok_state (one two : string) (g g' : Globaligner)
    (alignment : Alignment.t) :
  get_alignment one two g = (Ok alignment, g') → g' = g.
Proof.
  unfold get_alignment, alignments_getitem. munfold.
  rewrite indices_at_eq. cbv beta iota. unfold default_get.
  destruct (_alignment_indices g !! one) as [inner|]; simpl.
  - destruct (inner !! two) as [[n|]|]; simpl; [|done..].
    destruct g; simpl. match goal with |- context [?l !! n] =>
      destruct (l !! n) end; [|done].
    by intros [= _ <-].
  - by rewrite lookup_empty.
Qed.

Lemma synteny_value (g : Globaligner) (h : heap) (one two : string)
    (i : Float.t) (alignment : Alignment.t)
    (one_cluster two_cluster : Cluster.t) :
  (get_alignment one two g).1 = Ok alignment →
  odict_get one (clusters g) = Some one_cluster →
  odict_get two (clusters g) = Some two_cluster →
  ∃ h', synteny one two i (g, h)
        = (Ok (Float.add (Float.Finite (homology alignment))
                 (Float.mul i (Float.Finite (inject_Z (Z.of_nat 0))))),
           (g, h')).
Proof.
  intros Hget Hone Htwo.
  destruct (get_alignment one two g) as [r g'] eqn:Hg. simpl in Hget.
  subst r. pose proof (get_alignment_ok_state _ _ _ _ _ Hg) as ->.
  unfold synteny, on_store, on_heap, cluster_at. munfold. simpl.
  rewrite Hg. simpl. rewrite Hone. simpl. rewrite Htwo. simpl.
  rewrite contiguity_zero. eauto.
Qed.

(** C2 as stated fails: the weight is any number the caller gives, and
    with the weight inf the product of the weight and the contiguity 0 is
    nan, so that synteny returns nan and not the sum of the identities. *)
Lemma synteny_infinite_weight :
  ¬ (∀ g h one two weight alignment one_cluster two_cluster,
       (get_alignment one two g).1 = Ok alignment →
       odict_get one (clusters g) = Some one_cluster →
       odict_get two (clusters g) = Some two_cluster →
       ∃ score,
         (synteny one two weight (g, h)).1 = Ok (Float.Finite score)
         ∧ (score == homology alignment)%Q).
Proof.
  intros H.
  destruct (H Data.g3 Data.h0 "Y" "Z" Float.PosInf Data.yz Data.Y Data.Z)
    as (score & Hs & _); [reflexivity..|].
  vm_compute in Hs. discriminate Hs.
Qed.

(** C2, amended: for every pair of stored clusters with a stored
    alignment, the contiguity term of synteny is 0, because the objects
    that the two calls of get_pairs return are compared as objects and the
    intersection is empty; for every finite weight synteny returns the sum
    of the link identities of the stored alignment, and for the weights
    inf, -inf and nan it returns nan. *)
Theorem synteny_is_homology (g : Globaligner) (h : heap) (one two : string)
    (weight : Float.t) (alignment : Alignment.t)
    (one_cluster two_cluster : Cluster.t) :
  (get_alignment one two g).1 = Ok alignment →
  odict_get one (clusters g) = Some one_cluster →
  odict_get two (clusters g) = Some two_cluster →
  (let h1 := assign_groups (Alignment.links alignment) default_threshold h in
   let one_pairs := get_pairs one_cluster h1 in
   let two_pairs := get_pairs two_cluster one_pairs.2 in
   compare_pairs one_pairs.1 two_pairs.1 = 0)
  ∧ ∃ result,
      (synteny one two weight (g, h)).1 = Ok result
      ∧ match weight with
        | Float.Finite _ =>
            ∃ score, result = Float.Finite score
                     ∧ (score == homology alignment)%Q
        | _ => result = Float.NaN
        end.
Proof.
  intros Hget Hone Htwo. split; [apply contiguity_zero|].
  destruct (synteny_value g h one two weight _ _ _ Hget Hone Htwo)
    as [h' ->].
  eexists. split; [reflexivity|].
  destruct weight as [w| | |]; [|reflexivity..].
  eexists. split; [reflexivity|]. simpl. ring.
Qed.

Lemma synteny_is_homology_witness :
  (∃ score,
     (synteny "Y" "Z" (Float.Finite (1 # 2)) (Data.g3, Data.h0)).1
     = Ok (Float.Finite score)
     ∧ (score == 2)%Q)
  ∧ (synteny "Y" "Z" Float.NegInf (Data.g3, Data.h0)).1 = Ok Float.NaN.
Proof.
  split.
  - destruct (synteny_is_homology Data.g3 Data.h0 "Y" "Z"
                (Float.Finite (1 # 2)) Data.yz Data.Y Data.Z)
      as [_ (result & Hs & score & -> & Heq)]; [reflexivity..|].
    exists score. split; [exact Hs|]. rewrite Heq. reflexivity.
  - destruct (synteny_is_homology Data.g3 Data.h0 "Y" "Z" Float.NegInf
                Data.yz Data.Y Data.Z)
      as [_ (result & Hs & ->)]; [reflexivity..|].
    exact Hs.
Defined.

(** *** The score matrix *)

Lemma odict_get_key {V} (k : string) (d : list (string * V)) :
  In k d.*1 → is_Some (odict_get k d).
Proof.
  induction d as [|kv d IH]; simpl; [done|].
  destruct (String.eqb_spec kv.1 k) as [Heq|Hne]; [by eauto|].
  intros [?|Hin]; [done|]. by apply IH.
Qed.

Lemma enumerate_lookup {A} (l : list A) (i : nat) :
  enumerate l !! i = (λ x, (i, x)) <$> l !! i.
Proof.
  unfold enumerate. rewrite lookup_zip_with.
  destruct (l !! i) as [x|] eqn:Hi; simpl.
  - rewrite lookup_seq_lt by (by eapply lookup_lt_Some). done.
  - by destruct (seq 0 (length l) !! i).
Qed.

Lemma enumerate_In {A} (l : list A) (i : nat) (x : A) :
  In (i, x) (enumerate l) → l !! i = Some x.
Proof.
  intros Hin. apply list_elem_of_In, list_elem_of_lookup in Hin as [j Hj].
  rewrite enumerate_lookup in Hj.
  destruct (l !! j) as [y|] eqn:Hy; simpl in Hj; [|done].
  by injection Hj as -> ->.
Qed.

Lemma lookup_In {A} (l : list A) (i : nat) (x : A) :
  l !! i = Some x → In x l.
Proof. intros H. apply list_elem_of_In, list_elem_of_lookup. eauto. Qed.

Lemma matrix_row (g : Globaligner) (a : nat) (one : string)
    (one_cluster : Cluster.t) (cols : list (nat * string)) (h : heap) :
  odict_get one (clusters g) = Some one_cluster →
  (∀ col, In col cols → col.1 ≠ a →
     In col.2 (clusters g).*1
     ∧ ∃ alignment, (get_alignment one col.2 g).1 = Ok alignment) →
  ∃ row h',
    for_each
      (λ '(j, two),
         if Nat.eqb a j then mret (Float.Finite 0)
         else synteny one two (Float.Finite (inject_Z (Z.of_nat a))))
      cols (g, h)
    = (Ok row, (g, h'))
    ∧ Forall2 (entry_ok g a one) cols row.
Proof.
  intros Hone. revert h.
  induction cols as [|[j two] cols IH]; intros h Hcols.
  - exists [], h. split; [done|]. constructor.
  - simpl. munfold.
    destruct (Nat.eqb_spec a j) as [->|Hne].
    + destruct (IH h) as (row & h' & -> & Hrow).
      { intros col Hin. apply Hcols. by right. }
      exists (Float.Finite 0 :: row), h'. split; [done|].
      constructor; [|done].
      unfold entry_ok. simpl. by rewrite Nat.eqb_refl.
    + destruct (Hcols (j, two)) as [Hkey [alignment Hget]];
        [by left|simpl; congruence|]. simpl in Hkey, Hget.
      apply odict_get_key in Hkey as [two_cluster Htwo].
      destruct (synteny_value g h one two
                  (Float.Finite (inject_Z (Z.of_nat a))) _ _ _
                  Hget Hone Htwo) as [h1 ->].
      destruct (IH h1) as (row & h' & -> & Hrow).
      { intros col Hin. apply Hcols. by right. }
      eexists (_ :: row), h'. split; [done|]. constructor; [|done].
      unfold entry_ok. simpl.
      destruct (Nat.eqb_spec a j) as [?|_]; [done|]. eauto.
Qed.

Lemma for_each_cons {S A B} (body : A → M S B) (x : A) (l : list A)
    (s : S) :
  for_each body (x :: l) s
  = match body x s with
    | (Ok y, s1) =>
        match for_each body l s1 with
        | (Ok ys, s2) => (Ok (y :: ys), s2)
        | (Raise e, s2) => (Raise e, s2)
        end
    | (Raise e, s1) => (Raise e, s1)
    end.
Proof. reflexivity. Qed.

Lemma matrix_rows (g : Globaligner) (keys : list string)
    (rows : list (nat * string)) (h : heap) :
  keys = (clusters g).*1 →
  (∀ r, In r rows → keys !! r.1 = Some r.2) →
  all_aligned g →
  ∃ m h',
    for_each
      (λ '(i, one),
         for_each
           (λ '(j, two),
              if Nat.eqb i j then mret (Float.Finite 0)
              else synteny one two (Float.Finite (inject_Z (Z.of_nat i))))
           (enumerate keys))
      rows (g, h)
    = (Ok m, (g, h'))
    ∧ Forall2
        (λ r row, Forall2 (entry_ok g r.1 r.2) (enumerate keys) row)
        rows m.
Proof.
  intros -> Hrows Hall. revert h.
  induction rows as [|[a one] rows IH]; intros h.
  - exists [], h. split; [done|]. constructor.
  - rewrite for_each_cons.
    pose proof (Hrows (a, one) (or_introl eq_refl)) as Ha. simpl in Ha.
    destruct (odict_get_key one (clusters g)) as [one_cluster Hone];
      [by eapply lookup_In|].
    destruct (matrix_row g a one one_cluster (enumerate (clusters g).*1) h
                Hone) as (row & h1 & -> & Hrow).
    { intros [b two] Hin Hne. simpl in *.
      apply enumerate_In in Hin. split; [by eapply lookup_In|].
      apply (Hall a b); auto. }
    destruct IH with (h := h1) as (m & h' & -> & Hm).
    { intros r Hin. apply Hrows. by right. }
    exists (row :: m), h'. split; [done|]. by constructor.
Qed.

Lemma enumerate_length {A} (l : list A) : length (enumerate l) = length l.
Proof.
  unfold enumerate. rewrite length_zip_with, length_seq. lia.
Qed.

(** C3: when every pair of stored clusters has a stored alignment, matrix
    returns, for N stored clusters and whatever weight it is given, N rows
    of N cells with 0 on the diagonal; the cell of row a and column b
    holds what synteny returns for the clusters at positions a and b with
    the row index a as the weight, a finite number, whereas synteny with
    the weight inf returns nan for the same two clusters: the weight given
    to matrix never reaches synteny. *)
Theorem matrix_entries (g : Globaligner) (h : heap) (weight : Float.t) :
  all_aligned g →
  ∃ m w',
    matrix weight false false (g, h) = (Ok m, w')
    ∧ length m = length (clusters g)
    ∧ ∀ a one, (clusters g).*1 !! a = Some one →
        ∃ row,
          m !! a = Some row
          ∧ length row = length (clusters g)
          ∧ row !! a = Some (Float.Finite 0)
          ∧ ∀ b two, (clusters g).*1 !! b = Some two → a ≠ b →
              ∃ x, row !! b = Some (Float.Finite x)
                   ∧ (∀ h0,
                        (synteny one two
                           (Float.Finite (inject_Z (Z.of_nat a))) (g, h0)).1
                        = Ok (Float.Finite x))
                   ∧ (∀ h0,
                        (synteny one two Float.PosInf (g, h0)).1
                        = Ok Float.NaN).
Proof.
  intros Hall.
  destruct (matrix_rows g (clusters g).*1 (enumerate (clusters g).*1) h)
    as (m & h' & Hm & Hrows); [done| |done|].
  { intros [a one] Hin. by apply enumerate_In. }
  exists m, (g, h'). split; [|split].
  - unfold matrix. munfold. simpl. rewrite Hm. done.
  - apply Forall2_length in Hrows.
    rewrite enumerate_length, length_fmap in Hrows. done.
  - intros a one Ha.
    assert (enumerate (clusters g).*1 !! a = Some (a, one)) as Hea
      by (by rewrite enumerate_lookup, Ha).
    destruct (Forall2_lookup_l _ _ _ _ _ Hrows Hea) as (row & Hrow & Hcells).
    simpl in Hcells.
    exists row. split; [|split; [|split]].
    + done.
    + apply Forall2_length in Hcells.
      rewrite enumerate_length, length_fmap in Hcells. done.
    + destruct (Forall2_lookup_l _ _ _ _ _ Hcells Hea) as (x & Hx & Hok).
      unfold entry_ok in Hok. simpl in Hok. rewrite Nat.eqb_refl in Hok.
      by subst x.
    + intros b two Hb Hne.
      assert (enumerate (clusters g).*1 !! b = Some (b, two)) as Heb
        by (by rewrite enumerate_lookup, Hb).
      destruct (Forall2_lookup_l _ _ _ _ _ Hcells Heb) as (x & Hx & Hok).
      unfold entry_ok in Hok. simpl in Hok.
      destruct (Nat.eqb_spec a b) as [?|_]; [done|].
      destruct Hok as (alignment & Hget & ->).
      destruct (odict_get_key one (clusters g)) as [one_cluster Hone];
        [by eapply lookup_In|].
      destruct (odict_get_key two (clusters g)) as [two_cluster Htwo];
        [by eapply lookup_In|].
      eexists. split; [exact Hx|]. split; intros h0.
      * destruct (synteny_value g h0 one two
                    (Float.Finite (inject_Z (Z.of_nat a))) _ _ _
                    Hget Hone Htwo) as [h1 ->].
        reflexivity.
      * destruct (synteny_value g h0 one two Float.PosInf _ _ _
                    Hget Hone Htwo) as [h1 ->].
        reflexivity.
Qed.

Lemma matrix_entries_witness :
  ∃ m w',
    matrix Float.PosInf false false (Data.g3, Data.h0) = (Ok m, w')
    ∧ length m = 3
    ∧ (∃ row x,
         m !! 1 = Some row ∧ row !! 2 = Some (Float.Finite x) ∧ (x == 2)%Q)
    ∧ (synteny "Y" "Z" Float.PosInf (Data.g3, Data.h0)).1 = Ok Float.NaN.
Proof.
  assert (all_aligned Data.g3) as Hall.
  { unfold all_aligned.
    assert ((clusters Data.g3).*1 = ["X"; "Y"; "Z"]) as -> by reflexivity.
    intros a b one two Ha Hb Hne.
    destruct a as [|[|[|a]]]; destruct b as [|[|[|b]]];
      simpl in Ha, Hb; try done;
      injection Ha as <-; injection Hb as <-;
      eexists; vm_compute; reflexivity. }
  destruct (matrix_entries Data.g3 Data.h0 Float.PosInf Hall)
    as (m & w' & Hm & Hlen & Hcells).
  exists m, w'. split; [exact Hm|]. split; [exact Hlen|].
  destruct (Hcells 1 "Y" eq_refl) as (row & Hrow & _ & _ & Hoff).
  destruct (Hoff 2 "Z" eq_refl) as (x & Hx & Hsyn & Hinf); [done|].
  split; [|exact (Hinf Data.h0)].
  exists row, x. split; [exact Hrow|]. split; [exact Hx|].
  specialize (Hsyn Data.h0).
  vm_compute in Hsyn. injection Hsyn as <-. reflexivity.
Defined.

(** ** Serialization *)

(** Without any locus the round trip returns, and the alignment comes back
    under a uid drawn from the counter, not under its own. *)
Lemma from_dict_draws_new_uid :
  ∃ ga,
    (from_dict (to_dict Data.g_ef) Data.h0).1 = Ok ga
    ∧ Alignment.uid <$> alignments Data.g_ef = ["7"]
    ∧ ao_uid <$> ld_alignments ga = ["0"].
Proof. eexists. vm_compute. repeat split. Qed.

(** *** The round trip raises as soon as one cluster has a locus *)

Lemma put_genes_facts (genes : list Gene.t) (s : serial) :
  let s' := fold_left put_gene genes s in
  order s' = order s ∧ sclusters s' = sclusters s ∧ sloci s' = sloci s
  ∧ (∀ u, is_Some (sgenes s !! u) → is_Some (sgenes s' !! u))
  ∧ (∀ gene, In gene genes → is_Some (sgenes s' !! Gene.uid gene)).
Proof.
  revert s. induction genes as [|gene genes IH]; intros s; simpl.
  - split_and!; auto. intros ? [].
  - destruct (IH (put_gene s gene)) as (-> & -> & -> & Hmono & Hnew).
    split_and!; [done..| |].
    + intros u Hu. apply Hmono. simpl.
      destruct (decide (Gene.uid gene = u)) as [<-|Hne].
      * rewrite lookup_insert_eq. eauto.
      * by rewrite lookup_insert_ne.
    + intros gene' [<-|Hin]; [|by apply Hnew].
      apply Hmono. simpl. rewrite lookup_insert_eq. eauto.
Qed.

Lemma put_locus_facts (s : serial) (locus : Locus.t) :
  let s' := put_locus s locus in
  order s' = order s ∧ sclusters s' = sclusters s
  ∧ (∀ u, is_Some (sloci s !! u) → is_Some (sloci s' !! u))
  ∧ is_Some (sloci s' !! Locus.uid locus)
  ∧ (∀ u, is_Some (sgenes s !! u) → is_Some (sgenes s' !! u))
  ∧ (genes_present s → genes_present s').
Proof.
  unfold put_locus.
  set (s1 := Serial _ _ _ _ _ _).
  destruct (put_genes_facts (Locus.genes locus) s1)
    as (Ho & Hc & Hl & Hmono & Hnew).
  simpl in *. rewrite Ho, Hc, Hl. subst s1. simpl in *.
  split_and!; [done..| | | |].
  - intros u Hu. destruct (decide (Locus.uid locus = u)) as [<-|Hne].
    + rewrite lookup_insert_eq. eauto.
    + by rewrite lookup_insert_ne.
  - rewrite lookup_insert_eq. eauto.
  - done.
  - intros Hinv u p gu Hu Hgu. rewrite Hl in Hu. simpl in Hu.
    destruct (decide (Locus.uid locus = u)) as [<-|Hne].
    + rewrite lookup_insert_eq in Hu. injection Hu as <-. simpl in Hgu.
      apply in_map_iff in Hgu as (gene & <- & Hgene). by apply Hnew.
    + rewrite lookup_insert_ne in Hu by done. apply Hmono. by eapply Hinv.
Qed.

Lemma put_loci_facts (loci : list Locus.t) (s : serial) :
  let s' := fold_left put_locus loci s in
  order s' = order s ∧ sclusters s' = sclusters s
  ∧ (∀ u, is_Some (sloci s !! u) → is_Some (sloci s' !! u))
  ∧ (∀ locus, In locus loci → is_Some (sloci s' !! Locus.uid locus))
  ∧ (genes_present s → genes_present s').
Proof.
  revert s. induction loci as [|locus loci IH]; intros s; simpl.
  - split_and!; auto. intros ? [].
  - destruct (IH (put_locus s locus)) as (-> & -> & Hmono & Hnew & Hinv).
    destruct (put_locus_facts s locus) as (-> & -> & Hmono1 & Hnew1 & _ & Hinv1).
    split_and!; auto.
    intros locus' [<-|Hin]; auto.
Qed.

Lemma put_cluster_facts (s : serial) (kv : string * Cluster.t) :
  let s' := put_cluster s kv in
  order s' = order s
  ∧ sclusters s' = <[kv.1 := Cluster_to_dict kv.2]> (sclusters s)
  ∧ (genes_present s → genes_present s')
  ∧ (loci_present s → loci_present s').
Proof.
  unfold put_cluster.
  set (s1 := Serial _ _ _ _ _ _).
  destruct (put_loci_facts (Cluster.loci kv.2) s1)
    as (Ho & Hc & Hmono & Hnew & Hinv).
  simpl in *. rewrite Ho, Hc. subst s1. simpl in *.
  split_and!; [done..|].
  intros Hinv2 k p lu Hk Hlu. rewrite Hc in Hk. simpl in Hk.
  destruct (decide (kv.1 = k)) as [<-|Hne].
  - rewrite lookup_insert_eq in Hk. injection Hk as <-. simpl in Hlu.
    apply in_map_iff in Hlu as (locus & <- & Hlocus). by apply Hnew.
  - rewrite lookup_insert_ne in Hk by done. apply Hmono. by eapply Hinv2.
Qed.

Lemma put_clusters_facts (l : list (string * Cluster.t)) (s : serial) :
  let s' := fold_left put_cluster l s in
  order s' = order s
  ∧ (genes_present s → genes_present s')
  ∧ (loci_present s → loci_present s')
  ∧ (∀ k, ¬ In k l.*1 → sclusters s' !! k = sclusters s !! k)
  ∧ (NoDup l.*1 → ∀ k c, In (k, c) l →
       sclusters s' !! k = Some (Cluster_to_dict c)).
Proof.
  revert s. induction l as [|kv l IH]; intros s; simpl.
  - split_and!; auto. intros _ ? ? [].
  - destruct (IH (put_cluster s kv)) as (-> & Hg & Hl & Hout & Hin).
    destruct (put_cluster_facts s kv) as (-> & Hc & Hg1 & Hl1).
    split_and!; auto.
    + intros k Hk. rewrite Hout by tauto. rewrite Hc.
      apply lookup_insert_ne. tauto.
    + intros Hnd k c [->|Hkc].
      * apply NoDup_cons in Hnd as [Hfresh _]. simpl.
        rewrite Hout by (by rewrite <- list_elem_of_In).
        rewrite Hc. simpl. apply lookup_insert_eq.
      * apply NoDup_cons in Hnd as [_ Hnd]. by apply Hin.
Qed.

Lemma put_alignments_facts (l : list Alignment.t) (s : serial) :
  let s' := fold_left put_alignment l s in
  order s' = order s ∧ sclusters s' = sclusters s
  ∧ sloci s' = sloci s ∧ sgenes s' = sgenes s.
Proof.
  revert s. induction l as [|a l IH]; intros s; simpl; [done|].
  destruct (IH (put_alignment s a)) as (-> & -> & -> & ->).
  unfold put_alignment. set (s1 := Serial _ _ _ _ _ _).
  assert (order s1 = order s ∧ sclusters s1 = sclusters s
          ∧ sloci s1 = sloci s ∧ sgenes s1 = sgenes s) as H1 by done.
  clearbody s1. revert s1 H1.
  induction (Alignment.links a) as [|link links IHl]; intros s1 H1; [done|].
  simpl. apply IHl. done.
Qed.

(** What [to_dict] guarantees to [from_dict]. *)
Lemma to_dict_facts (g : Globaligner) :
  order (to_dict g) = (clusters g).*1
  ∧ genes_present (to_dict g)
  ∧ loci_present (to_dict g)
  ∧ (NoDup (clusters g).*1 → ∀ k c, In (k, c) (clusters g) →
       sclusters (to_dict g) !! k = Some (Cluster_to_dict c)).
Proof.
  unfold to_dict.
  set (s0 := Serial _ _ _ _ _ _).
  destruct (put_alignments_facts (alignments g)
              (fold_left put_cluster (clusters g) s0)) as (Ho & Hc & Hl & Hg).
  destruct (put_clusters_facts (clusters g) s0) as (Ho1 & Hg1 & Hl1 & _ & Hin).
  split; [by rewrite Ho, Ho1|]. split; [|split].
  - intros u p gu. rewrite Hl, Hg. apply Hg1. intros ? ? ? Hu.
    subst s0. simpl in Hu. by rewrite lookup_empty in Hu.
  - intros k p lu. rewrite Hc, Hl. apply Hl1. intros ? ? ? Hk.
    subst s0. simpl in Hk. by rewrite lookup_empty in Hk.
  - intros Hnd k c Hkc. rewrite Hc. by apply Hin.
Qed.

Lemma load_gene_ok (d : serial) (locus : locus_obj) (i : nat) (gu : string)
    (st : state) :
  is_Some (sgenes d !! gu) →
  i < length (lo_genes locus) →
  ∃ locus' st',
    load_gene d locus (i, Bare gu) st = (Ok locus', st')
    ∧ length (lo_genes locus') = length (lo_genes locus).
Proof.
  intros [payload Hgu] Hi.
  unfold load_gene, key_of, dict_get, Gene_from_dict, list_setitem,
    with_ld_genes.
  munfold. simpl. rewrite Hgu. simpl.
  destruct (Z.ltb_spec (Z.of_nat i) 0) as [?|_]; [lia|].
  rewrite decide_True by lia. simpl.
  eexists _, _. split; [reflexivity|]. simpl. apply length_insert.
Qed.

Lemma load_genes_ok (d : serial) (slots : list (nat * child Gene.t))
    (locus : locus_obj) (st : state) :
  (∀ slot, In slot slots →
     ∃ gu, slot.2 = Bare gu ∧ is_Some (sgenes d !! gu)
           ∧ slot.1 < length (lo_genes locus)) →
  ∃ locus' st', fold_each (load_gene d) slots locus st = (Ok locus', st').
Proof.
  revert locus st. induction slots as [|[i c] slots IH]; intros locus st Hs.
  - simpl. munfold. eauto.
  - destruct (Hs (i, c)) as (gu & Hc & Hgu & Hi); [by left|].
    simpl in Hc, Hi. subst c.
    destruct (load_gene_ok d locus i gu st Hgu Hi) as (l1 & st1 & Hl & Hlen).
    simpl. munfold. rewrite Hl.
    apply IH. intros slot Hin.
    destruct (Hs slot) as (gu' & ? & ? & ?); [by right|].
    exists gu'. rewrite Hlen. done.
Qed.

Lemma load_locus_raises (d : serial) (cluster : cluster_obj) (i : nat)
    (lu : string) (st : state) :
  genes_present d →
  is_Some (sloci d !! lu) →
  (load_locus d cluster (i, Bare lu) st).1 = Raise TypeError.
Proof.
  intros Hgenes [payload Hlu].
  unfold load_locus, key_of, dict_get. munfold.
  cbv beta iota delta [snd fst]. rewrite Hlu. cbv beta iota.
  destruct (load_genes_ok d
              (enumerate (lo_genes (Locus_from_dict payload)))
              (Locus_from_dict payload) st) as (locus & st' & ->).
  { intros [j c] Hin. apply enumerate_In in Hin. simpl in *.
    rewrite list_lookup_fmap in Hin.
    destruct (pl_genes payload !! j) as [gu|] eqn:Hj; [|done].
    injection Hin as <-. exists gu. split; [done|]. split.
    - eapply Hgenes; [done|]. by eapply lookup_In.
    - rewrite length_fmap. by eapply lookup_lt_Some. }
  reflexivity.
Qed.

Lemma load_cluster_cases (d : serial) (k : string) (st : state)
    (payload : cluster_payload) :
  genes_present d → loci_present d →
  sclusters d !! k = Some payload →
  match pc_loci payload with
  | [] => ∃ st', load_cluster d k st = (Ok tt, st')
  | _ :: _ => (load_cluster d k st).1 = Raise TypeError
  end.
Proof.
  intros Hgenes Hloci Hk.
  unfold load_cluster, dict_get. munfold. rewrite Hk. simpl.
  destruct (pc_loci payload) as [|lu lus] eqn:Hp.
  - simpl. munfold. unfold with_ld_clusters. munfold. eauto.
  - unfold Cluster_from_dict. rewrite Hp. simpl. munfold.
    pose proof (load_locus_raises d
                  (ClusterObj (pc_uid payload) (pc_name payload)
                     (Bare lu :: (Bare <$> lus)))
                  0 lu st Hgenes) as Hraise.
    destruct (load_locus d _ (0, Bare lu) st) as [r st1].
    simpl in Hraise. rewrite Hraise; [done|].
    eapply Hloci; [done|]. rewrite Hp. by left.
Qed.

Lemma load_clusters_raise (d : serial) (keys : list string) (st : state) :
  genes_present d → loci_present d →
  (∀ k, In k keys → is_Some (sclusters d !! k)) →
  (∃ k payload, In k keys ∧ sclusters d !! k = Some payload
                ∧ pc_loci payload ≠ []) →
  (for_each (load_cluster d) keys st).1 = Raise TypeError.
Proof.
  intros Hgenes Hloci. revert st.
  induction keys as [|k keys IH]; intros st Hall (k' & p' & Hin & Hk' & Hp').
  - destruct Hin.
  - rewrite for_each_cons.
    destruct (Hall k) as [payload Hk]; [by left|].
    pose proof (load_cluster_cases d k st payload Hgenes Hloci Hk) as Hcase.
    destruct (pc_loci payload) as [|lu lus] eqn:Hp.
    + destruct Hcase as [st' ->].
      assert ((for_each (load_cluster d) keys st').1 = Raise TypeError) as Ht.
      { apply IH; [intros; apply Hall; by right|].
        exists k', p'. split; [|done].
        destruct Hin as [->|Hin]; [|done]. congruence. }
      destruct (for_each (load_cluster d) keys st') as [[ys|e] st2];
        simpl in *; congruence.
    + destruct (load_cluster d k st) as [[[]|e] st']; simpl in *;
        congruence.
Qed.

(** C5: the round trip does not return.  For every store whose cluster
    dictionary holds a cluster with at least one locus (the keys of a
    dictionary are distinct), [from_dict(to_dict(g))] raises TypeError:
    after the genes of the first locus are loaded, the store into
    [cluster.loci] is subscripted with the uid of the locus, a string,
    where the sibling loops over genes and links use the position. *)
Theorem from_dict_to_dict_raises (g : Globaligner) (h : heap)
    (k : string) (c : Cluster.t) :
  NoDup (clusters g).*1 →
  In (k, c) (clusters g) →
  Cluster.loci c ≠ [] →
  (from_dict (to_dict g) h).1 = Raise TypeError.
Proof.
  intros Hnd Hin Hloci.
  destruct (to_dict_facts g) as (Ho & Hgenes & Hlp & Hlook).
  assert ((for_each (load_cluster (to_dict g)) (order (to_dict g))
             (loaded_init, h)).1 = Raise TypeError) as Hraise.
  { apply load_clusters_raise; [done..| |].
    - rewrite Ho. intros k' Hk'.
      apply in_map_iff in Hk' as ([k0 c0] & <- & Hk0).
      simpl. rewrite (Hlook Hnd k0 c0 Hk0). eauto.
    - exists k, (Cluster_to_dict c). split; [|split].
      + rewrite Ho. apply in_map_iff. by exists (k, c).
      + by apply Hlook.
      + simpl. destruct (Cluster.loci c); done. }
  unfold from_dict. munfold.
  destruct (for_each (load_cluster (to_dict g)) (order (to_dict g))
              (loaded_init, h)) as [[ys|e] st'];
    simpl in *; congruence.
Qed.

Lemma from_dict_to_dict_raises_witness :
  (from_dict (to_dict Data.g1) Data.h0).1 = Raise TypeError.
Proof.
  apply (from_dict_to_dict_raises Data.g1 Data.h0 "X" Data.X).
  - apply (bool_decide_unpack _). vm_compute. exact I.
  - left. reflexivity.
  - discriminate.
Defined.

(** * Further properties *)

(** ** Identity and similarity *)

Lemma split_lines_length (s : string) :
  length (split_lines s) = S (newlines s).
Proof.
  induction s as [|c s IH]; simpl; [done|].
  destruct (Ascii.eqb c "010"%char); simpl; [by rewrite IH|].
  destruct (split_lines s) as [|line lines]; simpl in *; [done|lia].
Qed.

(** X1: [compute_identity] raises ValueError on every text that does not
    hold exactly three newline characters, since the unpacking needs four
    lines. *)
Theorem compute_identity_needs_four_lines (alignment : string) :
  newlines alignment ≠ 3 →
  compute_identity alignment = Raise ValueError.
Proof.
  intros Hn. unfold compute_identity.
  pose proof (split_lines_length alignment) as Hlen.
  destruct (split_lines alignment) as [|a [|b [|c [|d [|e l]]]]];
    simpl in Hlen; try done.
  lia.
Qed.

Lemma compute_identity_needs_four_lines_witness :
  compute_identity "MSTK
MSTK" = Raise ValueError.
Proof.
  apply compute_identity_needs_four_lines. simpl. lia.
Defined.

Lemma get_lt (s : string) (i : nat) :
  (i < String.length s)%nat → ∃ a, String.get i s = Some a.
Proof.
  revert i. induction s as [|c s IH]; intros i Hi; simpl in *; [lia|].
  destruct i as [|i]; [by eauto|]. apply IH. lia.
Qed.

Lemma get_ge (s : string) (i : nat) :
  (String.length s ≤ i)%nat → String.get i s = None.
Proof.
  revert i. induction s as [|c s IH]; intros i Hi; simpl in *.
  - by destruct i.
  - destruct i as [|i]; [lia|]. apply IH. lia.
Qed.

Lemma similar_pair_comm (a b : ascii) : similar_pair a b = similar_pair b a.
Proof.
  unfold similar_pair. induction similar_acids as [|group groups IH];
    simpl; [done|]. by rewrite IH, andb_comm.
Qed.

Lemma column_comm (a b : ascii) (c : counters) : column a b c = column b a c.
Proof.
  unfold column. destruct (Ascii.eqb_spec a b) as [->|Hne].
  - by rewrite Ascii.eqb_refl.
  - destruct (Ascii.eqb_spec b a) as [->|_]; [done|].
    by rewrite similar_pair_comm.
Qed.

Lemma column_at_comm (one two : string) (acc : result counters) (i : nat) :
  column_at one two acc i = column_at two one acc i.
Proof.
  unfold column_at. destruct acc as [c|e]; simpl; [|done].
  destruct (String.get i one) as [a|], (String.get i two) as [b|]; try done.
  by rewrite column_comm.
Qed.

Lemma fold_column_at_comm (one two : string) (l : list nat)
    (acc : result counters) :
  fold_left (column_at one two) l acc = fold_left (column_at two one) l acc.
Proof.
  revert acc. induction l as [|i l IH]; intros acc; simpl; [done|].
  by rewrite column_at_comm, IH.
Qed.

(** X2: for two strings of equal length, the calculation gives the same
    outcome (the same pair, or the same exception) whichever string comes
    first. *)
Theorem identity_of_strings_swap (one two : string) :
  String.length one = String.length two →
  identity_of_strings one two = identity_of_strings two one.
Proof.
  intros Hlen. unfold identity_of_strings, scan.
  by rewrite Hlen, fold_column_at_comm.
Qed.

Lemma identity_of_strings_swap_witness :
  identity_of_strings "MS-K" "MSTR" = identity_of_strings "MSTR" "MS-K".
Proof. apply identity_of_strings_swap. reflexivity. Defined.

Lemma fold_outcome (one two : string) (l : list nat) (c : counters) :
  (∃ c', fold_left (column_at one two) l (Ok c) = Ok c')
  ∨ fold_left (column_at one two) l (Ok c) = Raise IndexError.
Proof.
  revert c. induction l as [|i l IH]; intros c; simpl; [by eauto|].
  destruct (String.get i one) as [a|]; [|right; apply fold_raise].
  destruct (String.get i two) as [b|]; [|right; apply fold_raise].
  apply IH.
Qed.

(** X3: when the second string is shorter than the first, the loop
    indexes past its end and the calculation raises IndexError. *)
Theorem identity_of_strings_short (one two : string) :
  (String.length two < String.length one)%nat →
  identity_of_strings one two = Raise IndexError.
Proof.
  intros Hlt. unfold identity_of_strings, scan.
  set (c0 := Counters 0 0 _).
  replace (String.length one)
    with (String.length two + S (String.length one - S (String.length two)))
    by lia.
  rewrite seq_app, fold_left_app. simpl.
  assert (∀ acc, column_at one two acc (String.length two)
                 = Raise IndexError
                 ∨ ∃ e, acc = Raise e
                        ∧ column_at one two acc (String.length two) = Raise e)
    as Hstep.
  { intros [c|e]; [left|right; by eauto].
    unfold column_at. simpl. rewrite (get_ge two) by done.
    by destruct (String.get _ one). }
  destruct (fold_outcome one two (seq 0 (String.length two)) c0)
    as [[c' ->]| ->].
  - destruct (Hstep (Ok c')) as [->|(e & ? & _)]; [|done].
    by rewrite fold_raise.
  - simpl. by rewrite fold_raise.
Qed.

Lemma identity_of_strings_short_witness :
  identity_of_strings "MSTK" "MST" = Raise IndexError.
Proof. apply identity_of_strings_short. simpl. lia. Defined.

Lemma column_at_self (s : string) (i : nat) (a : ascii) (c : counters) :
  String.get i s = Some a →
  column_at s s (Ok c) i
  = Ok (if negb (gap_char a)
        then Counters (matches c + 1) (similar c) (length_ c)
        else Counters (matches c) (similar c) (length_ c - 1)).
Proof.
  intros Ha. unfold column_at. simpl. rewrite Ha.
  unfold column. by rewrite Ascii.eqb_refl.
Qed.

Lemma scan_self (s : string) (l : list nat) (c : counters) :
  (∀ i, In i l → (i < String.length s)%nat) →
  fold_left (column_at s s) l (Ok c)
  = Ok (Counters
          (matches c + Z.of_nat (length (List.filter (residue_at s) l)))
          (similar c)
          (length_ c
           - (Z.of_nat (length l)
              - Z.of_nat (length (List.filter (residue_at s) l))))).
Proof.
  revert c. induction l as [|i l IH]; intros c Hl.
  - simpl. destruct c; simpl. f_equal; f_equal; lia.
  - destruct (get_lt s i) as [a Ha]; [apply Hl; by left|].
    assert (residue_at s i = negb (gap_char a)) as Hr
      by (unfold residue_at; by rewrite Ha).
    cbn [fold_left List.filter]. rewrite (column_at_self s i a c Ha), Hr.
    destruct (negb (gap_char a));
      rewrite IH by (intros; apply Hl; by right);
      cbn [matches similar length_ length]; f_equal; f_equal; lia.
Qed.

Lemma Qdiv_self (n : Z) : n ≠ 0%Z → (inject_Z n / inject_Z n == 1)%Q.
Proof.
  intros Hn. unfold Qdiv. apply Qmult_inv_r.
  intros Heq. apply Hn. unfold Qeq in Heq. simpl in Heq. lia.
Qed.

(** X4: a string aligned with itself has identity 1 and similarity 1, as
    soon as one of its columns holds a residue. *)
Theorem identity_of_strings_self (s : string) (i : nat) :
  residue_at s i = true →
  ∃ identity similarity,
    identity_of_strings s s = Ok (identity, similarity)
    ∧ (identity == 1)%Q ∧ (similarity == 1)%Q.
Proof.
  intros Hres. unfold identity_of_strings, scan.
  rewrite scan_self
    by (intros j Hj; apply in_seq in Hj; lia).
  set (r := Z.of_nat (length (List.filter (residue_at s)
                                (seq 0 (String.length s))))).
  assert (r ≠ 0%Z) as Hr.
  { assert (In i (List.filter (residue_at s) (seq 0 (String.length s))))
      as Hin.
    { apply filter_In. split; [|done]. apply in_seq.
      destruct (Nat.lt_ge_cases i (String.length s)) as [?|Hge]; [lia|].
      unfold residue_at in Hres. by rewrite (get_ge s i Hge) in Hres. }
    subst r. destruct (List.filter _ _); [done|simpl; lia]. }
  simpl. rewrite length_seq. fold r.
  replace (Z.of_nat (String.length s) - (Z.of_nat (String.length s) - r))%Z
    with r by lia.
  replace (0 + r)%Z with r by lia. replace (r + 0)%Z with r by lia.
  unfold true_div. destruct (Z.eqb_spec r 0) as [?|_]; [done|]. simpl.
  eexists _, _. split; [reflexivity|]. split; by apply Qdiv_self.
Qed.

Lemma identity_of_strings_self_witness :
  ∃ identity similarity,
    identity_of_strings "M-TK" "M-TK" = Ok (identity, similarity)
    ∧ (identity == 1)%Q ∧ (similarity == 1)%Q.
Proof.
  apply (identity_of_strings_self "M-TK" 0). reflexivity.
Defined.

(** ** Homology grouping *)

Lemma group_link_skip (threshold : Q) (st : list (list Gene.t) * heap)
    (link : Link.t) :
  qualifies threshold link = false → group_link threshold st link = st.
Proof.
  unfold qualifies, group_link. by destruct (Qlt_bool _ _).
Qed.

Lemma grouping_filter (threshold : Q) (links : list Link.t)
    (st : list (list Gene.t) * heap) :
  fold_left (group_link threshold) links st
  = fold_left (group_link threshold)
      (List.filter (qualifies threshold) links) st.
Proof.
  revert st. induction links as [|link links IH]; intros st; [done|].
  simpl. destruct (qualifies threshold link) eqn:Hq; simpl.
  - apply IH.
  - rewrite group_link_skip by done. apply IH.
Qed.

(** X5: links under the threshold have no effect: the groups and the group
    indices are those of the list without them; when every link is under
    the threshold no group is made and no gene is touched. *)
Theorem assign_groups_ignores_low_links (threshold : Q)
    (links : list Link.t) (h : heap) :
  grouping links threshold h
  = grouping (List.filter (qualifies threshold) links) threshold h
  ∧ (forallb (λ link, negb (qualifies threshold link)) links = true →
     grouping links threshold h = ([], h)
     ∧ assign_groups links threshold h = h).
Proof.
  split; [apply grouping_filter|].
  intros Hall. unfold assign_groups, grouping.
  rewrite grouping_filter.
  replace (List.filter (qualifies threshold) links) with (@nil Link.t);
    [done|].
  symmetry. apply filter_none. intros link Hin.
  rewrite forallb_forall in Hall. apply Hall in Hin.
  by destruct (qualifies threshold link).
Qed.

Lemma assign_groups_ignores_low_links_witness :
  assign_groups
    [Link.Make "0" Data.A Data.B (1 # 5) (1 # 2);
     Link.Make "1" Data.C Data.D (1 # 4) (1 # 2)]
    default_threshold Data.h0
  = Data.h0.
Proof.
  apply (assign_groups_ignores_low_links default_threshold). reflexivity.
Defined.

Lemma py_in_app (y : Gene.t) (l l' : list Gene.t) :
  py_in y (l ++ l') = py_in y l || py_in y l'.
Proof. unfold py_in. apply existsb_app. Qed.

Lemma py_in_one (y x : Gene.t) :
  py_in y [x] = true ↔ Gene.id y = Gene.id x.
Proof.
  unfold py_in, py_eqb, gene_pyeq. simpl. rewrite orb_false_r.
  apply Nat.eqb_eq.
Qed.

(** What one endpoint adds to a group that was found. *)
Lemma absorb_facts (i : nat) (group : list Gene.t) (h : heap) (x : Gene.t) :
  let st := absorb i (group, h) x in
  (∀ y, py_in y group = true → py_in y st.1 = true)
  ∧ py_in x st.1 = true
  ∧ (∀ y, group_attr st.2 !! Gene.id y = group_attr h !! Gene.id y
          ∨ (group_attr st.2 !! Gene.id y = Some i
             ∧ py_in y st.1 = true))
  ∧ (∀ y, py_in y st.1 = true →
          py_in y group = true ∨ group_attr st.2 !! Gene.id y = Some i).
Proof.
  unfold absorb. simpl. destruct (py_in x group) eqn:Hx; simpl.
  - auto.
  - split_and!.
    + intros y Hy. by rewrite py_in_app, Hy.
    + rewrite py_in_app. apply orb_true_iff. right. by apply py_in_one.
    + intros y. destruct (decide (Gene.id x = Gene.id y)) as [Heq|Hne].
      * right. rewrite Heq, lookup_insert_eq. split; [done|].
        rewrite py_in_app. apply orb_true_iff. right. by apply py_in_one.
      * left. by rewrite lookup_insert_ne.
    + intros y. rewrite py_in_app. intros [?|Hy]%orb_true_iff; [by left|].
      right. apply py_in_one in Hy. rewrite Hy. apply lookup_insert_eq.
Qed.

Lemma absorb_both_facts (i : nat) (group : list Gene.t) (h : heap)
    (q t : Gene.t) :
  let st := fold_left (absorb i) [q; t] (group, h) in
  (∀ y, py_in y group = true → py_in y st.1 = true)
  ∧ py_in q st.1 = true ∧ py_in t st.1 = true
  ∧ (∀ y, group_attr st.2 !! Gene.id y = group_attr h !! Gene.id y
          ∨ (group_attr st.2 !! Gene.id y = Some i
             ∧ py_in y st.1 = true))
  ∧ (∀ y, py_in y st.1 = true →
          py_in y group = true ∨ group_attr st.2 !! Gene.id y = Some i).
Proof.
  simpl.
  destruct (absorb_facts i group h q) as (Hk1 & Hq1 & Ha1 & Hb1).
  destruct (absorb i (group, h) q) as [g1 h1]. simpl in *.
  destruct (absorb_facts i g1 h1 t) as (Hk2 & Ht2 & Ha2 & Hb2).
  destruct (absorb i (g1, h1) t) as [g2 h2]. simpl in *.
  split_and!; auto.
  - intros y. destruct (Ha2 y) as [->|?]; [|by right].
    destruct (Ha1 y) as [->|[-> ?]]; [by left|right; auto].
  - intros y Hy. destruct (Hb2 y Hy) as [Hy1|?]; [|by right].
    destruct (Hb1 y Hy1) as [?|Hset]; [by left|].
    destruct (Ha2 y) as [->|[? _]]; by right.
Qed.

(** The scan either finds one group, which then holds both endpoints, or
    finds none; groups keep their position and their genes. *)
Lemma scan_groups_found (i : nat) (groups groups' : list (list Gene.t))
    (link : Link.t) (h h' : heap) :
  scan_groups i groups link h = Some (groups', h') →
  (∀ j g, groups !! j = Some g →
     ∃ g', groups' !! j = Some g' ∧ ∀ y, py_in y g = true → py_in y g' = true)
  ∧ length groups' = length groups
  ∧ (∃ j g', groups' !! j = Some g'
             ∧ py_in (Link.query link) g' = true
             ∧ py_in (Link.target link) g' = true)
  ∧ (∀ y, group_attr h' !! Gene.id y = group_attr h !! Gene.id y
          ∨ ∃ j g', group_attr h' !! Gene.id y = Some (i + j)
                    ∧ groups' !! j = Some g' ∧ py_in y g' = true)
  ∧ (∀ j g' y, groups' !! j = Some g' → py_in y g' = true →
       (∃ g, groups !! j = Some g ∧ py_in y g = true)
       ∨ group_attr h' !! Gene.id y = Some (i + j)).
Proof.
  revert i groups'. induction groups as [|group rest IH];
    intros i groups' Hscan; simpl in Hscan; [done|].
  destruct (py_in (Link.query link) group || py_in (Link.target link) group).
  - injection Hscan as <- <-.
    destruct (absorb_both_facts i group h (Link.query link)
                (Link.target link)) as (Hk & Hq & Ht & Ha & Hb).
    simpl in *. split_and!.
    + intros [|j] g Hg; simpl in *; [|by eauto].
      injection Hg as <-. eauto.
    + done.
    + exists 0. eauto.
    + intros y. destruct (Ha y) as [?|[? ?]]; [by left|right].
      exists 0. rewrite Nat.add_0_r. eauto.
    + intros [|j] g' y Hg Hy; simpl in *.
      * injection Hg as <-. rewrite Nat.add_0_r.
        destruct (Hb y Hy) as [?|?]; [left; eauto|by right].
      * left. eauto.
  - destruct (scan_groups (S i) rest link h) as [[rest' h1]|] eqn:Hrest;
      [|done].
    injection Hscan as <- <-. simpl.
    destruct (IH _ _ Hrest)
      as (Hk & Hlen & (j & g' & Hj & Hq & Ht) & Ha & Hb).
    split_and!.
    + intros [|j0] g Hg; simpl in *; [by eauto|by apply Hk].
    + simpl. by rewrite Hlen.
    + exists (S j), g'. done.
    + intros y. destruct (Ha y) as [?|(j0 & g0 & ? & ? & ?)]; [by left|right].
      exists (S j0), g0. split_and!; [|done..].
      by replace (i + S j0) with (S i + j0) by lia.
    + intros [|j0] g0 y Hg Hy; simpl in *.
      * injection Hg as <-. left. eauto.
      * destruct (Hb j0 g0 y Hg Hy) as [?|?]; [by left|right].
        by replace (i + S j0) with (S i + j0) by lia.
Qed.

Lemma group_link_found (threshold : Q) (st st' : list (list Gene.t) * heap)
    (link : Link.t) :
  qualifies threshold link = true →
  scan_groups 0 st.1 link st.2 = Some st' →
  group_link threshold st link = st'.
Proof.
  unfold qualifies, group_link. destruct (Qlt_bool _ _); [done|].
  by intros _ ->.
Qed.

Lemma group_link_new (threshold : Q) (st : list (list Gene.t) * heap)
    (link : Link.t) :
  qualifies threshold link = true →
  scan_groups 0 st.1 link st.2 = None →
  group_link threshold st link
  = (st.1 ++ [[Link.query link; Link.target link]],
     set_group (Link.target link) (length st.1)
       (set_group (Link.query link) (length st.1) st.2)).
Proof.
  unfold qualifies, group_link. destruct (Qlt_bool _ _); [done|].
  intros _ ->. rewrite length_app. simpl.
  by replace (length st.1 + 1 - 1) with (length st.1) by lia.
Qed.

Lemma py_in_two (y q t : Gene.t) :
  py_in y [q; t] = true ↔ Gene.id y = Gene.id q ∨ Gene.id y = Gene.id t.
Proof.
  unfold py_in, py_eqb, gene_pyeq. simpl. rewrite orb_false_r.
  rewrite orb_true_iff, !Nat.eqb_eq. done.
Qed.

(** One link keeps the groups consistent with the group indices, keeps
    every gene in its group, and leaves the endpoints of a link it does
    not skip in a group. *)
Lemma group_link_step (threshold : Q) (st : list (list Gene.t) * heap)
    (link : Link.t) :
  covered st →
  covered (group_link threshold st link)
  ∧ (∀ gene, grouped st gene → grouped (group_link threshold st link) gene)
  ∧ (length st.1 ≤ length (group_link threshold st link).1
     ≤ length st.1 + (if qualifies threshold link then 1 else 0))%nat
  ∧ (qualifies threshold link = true →
     grouped (group_link threshold st link) (Link.query link)
     ∧ grouped (group_link threshold st link) (Link.target link)).
Proof.
  intros Hcov. destruct (qualifies threshold link) eqn:Hq.
  2:{ rewrite group_link_skip by done. split_and!; try done; lia. }
  destruct st as [groups h]. simpl.
  destruct (scan_groups 0 groups link h) as [[groups' h']|] eqn:Hscan.
  - rewrite (group_link_found threshold (groups, h) (groups', h')) by done.
    destruct (scan_groups_found _ _ _ _ _ _ Hscan)
      as (Hk & Hlen & (j & g' & Hj & Hqin & Htin) & Ha & Hb).
    assert (∀ gene, grouped (groups, h) gene → grouped (groups', h') gene)
      as Hmono.
    { intros gene (i & group & Hi & Hin). simpl in *.
      destruct (Hk i group Hi) as (g1 & Hg1 & Hsub). exists i, g1. auto. }
    split_and!.
    + intros gene (i & group & Hi & Hin). simpl in *.
      destruct (Ha gene) as [Hsame|(j0 & g0 & Hattr & Hg0 & Hin0)].
      * destruct (Hb i group gene Hi Hin) as [(g & Hg & Hing)|Hattr].
        -- destruct (Hcov gene) as (k & gk & Hka & Hkg & Hkin);
             [by exists i, g|]. simpl in *.
           destruct (Hk k gk Hkg) as (gk' & Hgk' & Hsub).
           exists k, gk'. simpl. rewrite Hsame. auto.
        -- exists i, group. auto.
      * exists j0, g0. auto.
    + done.
    + simpl. lia.
    + simpl. lia.
    + intros _. split; exists j, g'; auto.
  - rewrite group_link_new by done. simpl.
    set (q := Link.query link). set (t := Link.target link).
    set (n := length groups).
    assert (∀ gene, grouped (groups, h) gene →
                    grouped (groups ++ [[q; t]],
                             set_group t n (set_group q n h)) gene)
      as Hmono.
    { intros gene (i & group & Hi & Hin). exists i, group. simpl in *.
      split; [|done]. rewrite lookup_app_l; [done|].
      by eapply lookup_lt_Some. }
    assert (∀ gene, py_in gene [q; t] = true →
                    member (groups ++ [[q; t]],
                            set_group t n (set_group q n h)) gene)
      as Hnew.
    { intros gene Hin. exists n, [q; t]. simpl. split_and!; [|..|done].
      - apply py_in_two in Hin.
        destruct (decide (Gene.id gene = Gene.id t)) as [->|Hne].
        + apply lookup_insert_eq.
        + rewrite lookup_insert_ne by done.
          destruct Hin as [->|?]; [|done]. apply lookup_insert_eq.
      - rewrite lookup_app_r by done. subst n. by rewrite Nat.sub_diag. }
    split_and!.
    + intros gene (i & group & Hi & Hin). simpl in Hi.
      destruct (decide (i < n)%nat) as [Hlt|Hge].
      * rewrite lookup_app_l in Hi by done.
        destruct (py_in gene [q; t]) eqn:Hqt; [by apply Hnew|].
        apply not_true_iff_false in Hqt. rewrite py_in_two in Hqt.
        destruct (Hcov gene) as (k & gk & Hka & Hkg & Hkin);
          [by exists i, group|]. simpl in *.
        exists k, gk. simpl. split_and!; [|..|done].
        -- rewrite !lookup_insert_ne by (intros Heq; apply Hqt; auto). done.
        -- rewrite lookup_app_l; [done|]. by eapply lookup_lt_Some.
      * rewrite lookup_app_r in Hi by lia. fold n in Hi.
        destruct (i - n) as [|k] eqn:Hk; simpl in Hi; [|done].
        injection Hi as <-. by apply Hnew.
    + done.
    + rewrite length_app. simpl. lia.
    + rewrite length_app. simpl. lia.
    + intros _. split; exists n, [q; t]; simpl;
        (split; [rewrite lookup_app_r by done; subst n;
                 by rewrite Nat.sub_diag|]);
        apply py_in_two; auto.
Qed.

Lemma grouping_steps (threshold : Q) (links : list Link.t)
    (st : list (list Gene.t) * heap) :
  covered st →
  let st' := fold_left (group_link threshold) links st in
  covered st'
  ∧ (∀ gene, grouped st gene → grouped st' gene)
  ∧ (length st'.1
     ≤ length st.1 + length (List.filter (qualifies threshold) links))%nat
  ∧ (∀ link, In link links → qualifies threshold link = true →
       grouped st' (Link.query link) ∧ grouped st' (Link.target link)).
Proof.
  revert st. induction links as [|link links IH]; intros st Hcov; simpl.
  - split_and!; [done|done|lia|]. intros ? [].
  - destruct (group_link_step threshold st link Hcov)
      as (Hcov1 & Hmono1 & Hlen1 & Hend1).
    destruct (IH _ Hcov1) as (Hcov2 & Hmono2 & Hlen2 & Hend2).
    split_and!; [done|by auto| |].
    + destruct (qualifies threshold link); simpl in *; lia.
    + intros l [<-|Hin] Hq; [|by apply Hend2].
      destruct (Hend1 Hq). split; by apply Hmono2.
Qed.

(** X6: when the loop ends, each endpoint of every link at or above the
    threshold carries a group index that names a group holding that gene;
    the scenario of C1 shows that the two endpoints may still name
    different groups. *)
Theorem assign_groups_indexes_endpoints (links : list Link.t)
    (threshold : Q) (h : heap) (link : Link.t) :
  In link links →
  qualifies threshold link = true →
  member (grouping links threshold h) (Link.query link)
  ∧ member (grouping links threshold h) (Link.target link).
Proof.
  intros Hin Hq. unfold grouping.
  destruct (grouping_steps threshold links ([], h))
    as (Hcov & _ & _ & Hend).
  { intros gene (i & group & Hi & _). by destruct i. }
  destruct (Hend link Hin Hq). split; by apply Hcov.
Qed.

Lemma assign_groups_indexes_endpoints_witness :
  member (grouping Data.chain default_threshold Data.h0) Data.C
  ∧ member (grouping Data.chain default_threshold Data.h0) Data.D.
Proof.
  apply (assign_groups_indexes_endpoints Data.chain default_threshold
           Data.h0 (Link.Make "1" Data.C Data.D Data.half Data.half)).
  - right. left. reflexivity.
  - reflexivity.
Defined.

(** X7: the loop makes at most one group for each link at or above the
    threshold. *)
Theorem assign_groups_group_count (links : list Link.t) (threshold : Q)
    (h : heap) :
  (length (grouping links threshold h).1
   ≤ length (List.filter (qualifies threshold) links))%nat.
Proof.
  unfold grouping.
  destruct (grouping_steps threshold links ([], h)) as (_ & _ & Hlen & _).
  { intros gene (i & group & Hi & _). by destruct i. }
  simpl in Hlen. lia.
Qed.

(** ** The alignment store *)

Lemma add_cluster_ok (c : Cluster.t) (g : Globaligner) :
  (add_cluster (ACluster c) g).1 = Ok tt.
Proof. reflexivity. Qed.

(** X8: [add_clusters] is not atomic: at the first argument that is not a
    Cluster it raises NotImplementedError, the clusters before it stay
    registered and the arguments after it are not looked at. *)
Theorem add_clusters_stops_at_non_cluster (cs : list Cluster.t)
    (rest : list pyarg) (g : Globaligner) :
  add_clusters ((ACluster <$> cs) ++ AOther :: rest) g
  = (Raise NotImplementedError, (add_clusters (ACluster <$> cs) g).2).
Proof.
  unfold add_clusters. munfold.
  revert g. induction cs as [|c cs IH]; intros g; [done|].
  rewrite fmap_cons, <- app_comm_cons, !for_each_cons.
  destruct (add_cluster (ACluster c) g) as [[[]|e] g1] eqn:Hc;
    [|by pose proof (add_cluster_ok c g) as H; rewrite Hc in H].
  specialize (IH g1).
  destruct (for_each add_cluster ((ACluster <$> cs) ++ AOther :: rest) g1)
    as [[ys|e] g2];
    destruct (for_each add_cluster (ACluster <$> cs) g1) as [[ys'|e'] g3];
    simpl in *; congruence.
Qed.

(** X9: a call of [get_alignment] that returns leaves the store as it
    was; only a failing call can change it. *)
Theorem get_alignment_returns_pure (one two : string) (g g' : Globaligner)
    (alignment : Alignment.t) :
  get_alignment one two g = (Ok alignment, g') → g' = g.
Proof. apply get_alignment_ok_state. Qed.

Lemma get_alignment_returns_pure_witness :
  (get_alignment "X" "Y" Data.g3).2 = Data.g3.
Proof.
  apply (get_alignment_returns_pure "X" "Y" Data.g3 _ Data.first).
  vm_compute. reflexivity.
Defined.

(** X10: a call of [add_alignment] that returns files the alignment under
    both orders of its pair: [get_alignment] then returns that alignment
    for (query, target) and for (target, query). *)
Theorem add_alignment_then_get (a : Alignment.t) (g g' : Globaligner) :
  add_alignment a g = (Ok tt, g') →
  get_alignment (Cluster.uid (Alignment.query a))
    (Cluster.uid (Alignment.target a)) g' = (Ok a, g')
  ∧ get_alignment (Cluster.uid (Alignment.target a))
      (Cluster.uid (Alignment.query a)) g' = (Ok a, g').
Proof.
  intros Hadd.
  apply add_alignment_view in Hadd as [_ [(_ & n & Hn & Hlook)|([e ?] & _)]];
    [|done].
  split; apply (get_alignment_indexed g' _ _ n); try done;
    rewrite Hlook; by rewrite decide_True by auto.
Qed.

Lemma add_alignment_then_get_witness :
  get_alignment "X" "Z" (add_alignment Data.xz Data.g1).2
  = (Ok Data.xz, (add_alignment Data.xz Data.g1).2).
Proof.
  apply (add_alignment_then_get Data.xz Data.g1). vm_compute. reflexivity.
Defined.

(** X11: an alignment whose pair is filed at a position other than 0 is
    overwritten in place: the list keeps its length and holds the new
    alignment at that position. *)
Theorem add_alignment_overwrites_in_place (a : Alignment.t)
    (g : Globaligner) (n : nat) :
  lookup2 (_alignment_indices g)
    (Cluster.uid (Alignment.query a)) (Cluster.uid (Alignment.target a))
  = Some (IntIndex (S n)) →
  S n < length (alignments g) →
  (add_alignment a g).1 = Ok tt
  ∧ alignments (add_alignment a g).2 = <[S n := a]> (alignments g)
  ∧ length (alignments (add_alignment a g).2) = length (alignments g).
Proof.
  intros Hix Hlt. destruct (add_alignment_overwrites a g n Hix Hlt) as [Hr Ha].
  split_and!; [done..|]. by rewrite Ha, length_insert.
Qed.

Lemma index_in_range_indices_at (k : string) (g : Globaligner) :
  index_in_range g → index_in_range (indices_at k g).2.
Proof.
  intros Hin x y v. rewrite indices_at_eq. destruct g; simpl in *.
  rewrite lookup2_default_get. apply Hin.
Qed.

Lemma index_in_range_step (g g' : Globaligner) :
  step g g' → index_in_range g → index_in_range g'.
Proof.
  intros Hstep Hin. destruct Hstep.
  - destruct (add_clusters_fields args g) as [Hi Ha].
    intros x y v. rewrite Hi, Ha. apply Hin.
  - destruct (add_alignment alignment g) as [r g'] eqn:Hadd.
    apply add_alignment_view in Hadd as [Hkeep Hcases]. simpl.
    assert (∀ x y v, lookup2 (_alignment_indices g) x y = Some v →
                     ∃ n, v = IntIndex n ∧ n < length (alignments g'))
      as Hold.
    { intros x y v Hv. destruct (Hin x y v Hv) as (n & -> & Hn).
      exists n. split; [done|]. apply lookup_lt_is_Some, Hkeep.
      by apply lookup_lt_is_Some. }
    destruct Hcases as [(_ & n & Hn & Hlook)|(_ & Hlook)];
      intros x y v; rewrite Hlook; [|by apply Hold].
    case_decide; [|by apply Hold].
    intros [= <-]. exists n. split; [done|]. by eapply lookup_lt_Some.
  - rewrite get_alignment_state. by apply index_in_range_indices_at.
  - by apply index_in_range_indices_at.
  - rewrite synteny_store, get_alignment_state.
    by apply index_in_range_indices_at.
Qed.

Lemma reachable_index_in_range (g : Globaligner) :
  reachable g → index_in_range g.
Proof.
  unfold reachable. revert g. apply rtc_ind_r.
  - intros x y v Hv. unfold lookup2 in Hv. simpl in Hv.
    by rewrite lookup_empty in Hv.
  - intros g g' _ Hstep Hin. by eapply index_in_range_step.
Qed.

(** X12: on a store built from [Globaligner()] by calls of add_clusters,
    add_alignment, get_alignment and synteny (returning or raising),
    [get_alignment] either returns a stored alignment, leaving the store
    as it was, or raises KeyError; it never raises IndexError or
    TypeError. *)
Theorem get_alignment_on_reachable (g : Globaligner) (one two : string) :
  reachable g →
  (∃ alignment, In alignment (alignments g)
                ∧ get_alignment one two g = (Ok alignment, g))
  ∨ (get_alignment one two g).1 = Raise KeyError.
Proof.
  intros Hr. apply reachable_index_in_range in Hr.
  destruct (lookup2 (_alignment_indices g) one two) as [v|] eqn:Hv.
  - left. destruct (Hr one two v Hv) as (n & -> & Hn).
    apply lookup_lt_is_Some in Hn as [alignment Ha].
    exists alignment. split; [by eapply lookup_In|].
    by apply (get_alignment_indexed g _ _ n).
  - right. by rewrite (get_alignment_missing _ _ _ Hv).
Qed.

Lemma get_alignment_on_reachable_witness :
  (∃ alignment, In alignment (alignments Data.g1)
                ∧ get_alignment "Y" "X" Data.g1 = (Ok alignment, Data.g1))
  ∨ (get_alignment "Y" "X" Data.g1).1 = Raise KeyError.
Proof.
  apply get_alignment_on_reachable.
  apply (rtc_l _ _ Data.g1); [|apply rtc_refl].
  apply step_add_alignment.
Defined.

(** What [add_clusters(q, t)] leaves in the cluster dictionary. *)
Lemma odict_get_set {V} (k k' : string) (v : V) (d : list (string * V)) :
  odict_get k' (odict_set k v d)
  = if decide (k' = k) then Some v else odict_get k' d.
Proof.
  induction d as [|kv d IH]; simpl.
  - destruct (String.eqb_spec k k'); case_decide; congruence.
  - destruct (String.eqb_spec kv.1 k) as [Hk|Hk]; simpl.
    + destruct (String.eqb_spec kv.1 k'); case_decide; congruence.
    + destruct (String.eqb_spec kv.1 k'); [|done].
      case_decide; congruence.
Qed.

Lemma index_loci_clusters (loci : list Locus.t) (g : Globaligner) :
  clusters (fold_left index_locus loci g) = clusters g.
Proof.
  revert g. induction loci as [|locus loci IH]; intros g; [done|].
  simpl. rewrite IH. unfold index_locus.
  set (g0 := with_loci _ g).
  assert (clusters g0 = clusters g) as H0 by done.
  clearbody g0. revert g0 H0.
  induction (Locus.genes locus) as [|gene genes IHg]; intros g0 H0; [done|].
  simpl. by apply IHg.
Qed.

Lemma add_clusters_pair_clusters (q t : Cluster.t) (g : Globaligner) :
  clusters (add_clusters [ACluster q; ACluster t] g).2
  = odict_set (Cluster.uid t) t (odict_set (Cluster.uid q) q (clusters g)).
Proof.
  unfold add_clusters, add_cluster. munfold. simpl.
  rewrite index_loci_clusters. simpl. rewrite index_loci_clusters.
  by destruct g.
Qed.

Lemma keeps_bind {A B} (m : M Globaligner A) (k : A → M Globaligner B) :
  keeps_clusters m → (∀ a, keeps_clusters (k a)) → keeps_clusters (m ≫= k).
Proof.
  intros Hm Hk g. unfold mbind, M_bind. specialize (Hm g).
  destruct (m g) as [[a|e] g1]; simpl in *; [|done].
  by rewrite Hk.
Qed.

Lemma keeps_modify (f : Globaligner → Globaligner) :
  (∀ g, clusters (f g) = clusters g) → keeps_clusters (modify f).
Proof. intros Hf g. apply Hf. Qed.

Lemma keeps_indices_at (k : string) : keeps_clusters (indices_at k).
Proof. intros g. by destruct g. Qed.

Lemma keeps_indices_set (k1 k2 : string) (v : index_value) :
  keeps_clusters (indices_set k1 k2 v).
Proof. intros g. rewrite indices_set_eq. by destruct g. Qed.

Lemma keeps_update_mappings (q t : string) (n : nat) :
  keeps_clusters (update_mappings q t n).
Proof.
  unfold update_mappings.
  repeat (apply keeps_bind; [apply keeps_indices_set|intros _]).
  apply keeps_modify. by intros [].
Qed.

Lemma keeps_alignments_setitem (v : index_value) (a : Alignment.t) :
  keeps_clusters (alignments_setitem v a).
Proof.
  destruct v as [n|]; [|done]. unfold alignments_setitem.
  apply keeps_bind; [done|]. intros len. case_decide; [|done].
  apply keeps_bind; [|done]. apply keeps_modify. by intros [].
Qed.

Lemma add_alignment_clusters (a : Alignment.t) (g : Globaligner) :
  clusters (add_alignment a g).2
  = odict_set (Cluster.uid (Alignment.target a)) (Alignment.target a)
      (odict_set (Cluster.uid (Alignment.query a)) (Alignment.query a)
         (clusters g)).
Proof.
  rewrite <- add_clusters_pair_clusters.
  unfold add_alignment. unfold mbind at 1, M_bind at 1.
  pose proof (add_clusters_two (Alignment.query a) (Alignment.target a) g)
    as Hok.
  destruct (add_clusters _ g) as [r1 g1]. simpl in Hok. subst r1. simpl.
  apply keeps_bind; [apply keeps_indices_at|]. intros inner.
  apply keeps_bind; [|intros; apply keeps_update_mappings].
  destruct (truthy _).
  - destruct (inner !! _); [apply keeps_alignments_setitem|done].
  - apply keeps_bind; [done|]. intros len.
    apply keeps_bind; [|done]. apply keeps_modify. by intros [].
Qed.

(** X13: after a call of [add_alignment] that returns, [synteny] on the
    pair of the alignment returns, for every finite weight, the sum of the
    identities of the links of that alignment, and nan for the weights
    inf, -inf and nan. *)
Theorem add_alignment_then_synteny (a : Alignment.t) (g g' : Globaligner)
    (h : heap) (weight : Float.t) :
  add_alignment a g = (Ok tt, g') →
  ∃ result,
    (synteny (Cluster.uid (Alignment.query a))
       (Cluster.uid (Alignment.target a)) weight (g', h)).1 = Ok result
    ∧ match weight with
      | Float.Finite _ =>
          ∃ score, result = Float.Finite score ∧ (score == homology a)%Q
      | _ => result = Float.NaN
      end.
Proof.
  intros Hadd.
  pose proof (add_alignment_clusters a g) as Hc. rewrite Hadd in Hc.
  simpl in Hc.
  destruct (add_alignment_then_get a g g' Hadd) as [Hget _].
  assert (is_Some (odict_get (Cluster.uid (Alignment.query a)) (clusters g')))
    as [one_cluster Hone].
  { rewrite Hc, !odict_get_set. repeat case_decide; eauto; done. }
  assert (is_Some (odict_get (Cluster.uid (Alignment.target a))
                     (clusters g')))
    as [two_cluster Htwo].
  { rewrite Hc, !odict_get_set. repeat case_decide; eauto; done. }
  destruct (synteny_value g' h (Cluster.uid (Alignment.query a))
              (Cluster.uid (Alignment.target a)) weight a
              one_cluster two_cluster)
    as [h' ->]; [by rewrite Hget|done..|].
  eexists. split; [done|].
  destruct weight as [w| | |]; [|reflexivity..].
  eexists. split; [reflexivity|]. simpl. ring.
Qed.

Lemma add_alignment_then_synteny_witness :
  (∃ score,
     (synteny "Y" "Z" (Float.Finite (3 # 4))
        ((add_alignment Data.yz Data.g1).2, Data.h0)).1
     = Ok (Float.Finite score)
     ∧ (score == 2)%Q)
  ∧ (synteny "Y" "Z" Float.NaN
       ((add_alignment Data.yz Data.g1).2, Data.h0)).1
    = Ok Float.NaN.
Proof.
  split.
  - destruct (add_alignment_then_synteny Data.yz Data.g1
                (add_alignment Data.yz Data.g1).2 Data.h0
                (Float.Finite (3 # 4)))
      as (result & Hs & score & -> & Heq); [vm_compute; reflexivity|].
    exists score. split; [exact Hs|]. rewrite Heq. reflexivity.
  - destruct (add_alignment_then_synteny Data.yz Data.g1
                (add_alignment Data.yz Data.g1).2 Data.h0 Float.NaN)
      as (result & Hs & ->); [vm_compute; reflexivity|].
    exact Hs.
Defined.

Lemma add_alignment_overwrites_in_place_witness :
  alignments (add_alignment Data2.xz2 Data.g3).2
  = [Data.first; Data2.xz2; Data.yz].
Proof.
  destruct (add_alignment_overwrites_in_place Data2.xz2 Data.g3 0)
    as (_ & Ha & _); [vm_compute; reflexivity|vm_compute; lia|].
  rewrite Ha. reflexivity.
Defined.

(** ** The score matrix *)

Lemma indexed_sym (a b : string) (g : Globaligner) :
  indexed a b g → indexed b a g.
Proof. intros (n & al & ? & ? & ?). exists n, al. auto. Qed.

Lemma indexed_get (a b : string) (g : Globaligner) :
  indexed a b g →
  ∃ alignment,
    get_alignment a b g = (Ok alignment, g)
    ∧ get_alignment b a g = (Ok alignment, g).
Proof.
  intros (n & al & Hab & Hba & Hn). exists al.
  split; by apply (get_alignment_indexed g _ _ n).
Qed.

Lemma matrix_cell (g : Globaligner) (m : list (list Float.t)) (a b : nat)
    (row : list Float.t) (x : Float.t) :
  Forall2
    (λ r row, Forall2 (entry_ok g r.1 r.2) (enumerate (clusters g).*1) row)
    (enumerate (clusters g).*1) m →
  m !! a = Some row → row !! b = Some x →
  ∃ one two,
    (clusters g).*1 !! a = Some one ∧ (clusters g).*1 !! b = Some two
    ∧ entry_ok g a one (b, two) x.
Proof.
  intros Hrows Ha Hb.
  destruct (Forall2_lookup_r _ _ _ _ _ Hrows Ha) as ([a' one] & Hea & Hrow).
  rewrite enumerate_lookup in Hea.
  destruct ((clusters g).*1 !! a) as [one'|] eqn:Hone; [|done].
  injection Hea as <- <-. simpl in Hrow.
  destruct (Forall2_lookup_r _ _ _ _ _ Hrow Hb) as ([b' two] & Heb & Hcell).
  rewrite enumerate_lookup in Heb.
  destruct ((clusters g).*1 !! b) as [two'|] eqn:Htwo; [|done].
  injection Heb as <- <-. eauto.
Qed.

(** X14: when every pair of stored clusters has an alignment that was
    stored by add_alignment, the score matrix is symmetric: the cell of
    row a and column b and the cell of row b and column a hold the same
    finite number, for every weight. *)
Theorem matrix_symmetric (g : Globaligner) (h : heap) (weight : Float.t) :
  (∀ a b one two,
     (clusters g).*1 !! a = Some one →
     (clusters g).*1 !! b = Some two →
     a ≠ b → stored one two g ∨ stored two one g) →
  ∃ m w',
    matrix weight false false (g, h) = (Ok m, w')
    ∧ ∀ a b row_a row_b cell_ab cell_ba,
        m !! a = Some row_a → row_a !! b = Some cell_ab →
        m !! b = Some row_b → row_b !! a = Some cell_ba →
        ∃ x y,
          cell_ab = Float.Finite x ∧ cell_ba = Float.Finite y ∧ (x == y)%Q.
Proof.
  intros Hst.
  assert (∀ a b one two,
            (clusters g).*1 !! a = Some one →
            (clusters g).*1 !! b = Some two →
            a ≠ b → indexed one two g) as Hix.
  { intros a b one two Ha Hb Hne.
    destruct (Hst a b one two Ha Hb Hne) as [H|H];
      apply stored_indexed in H; [done|by apply indexed_sym]. }
  destruct (matrix_rows g (clusters g).*1 (enumerate (clusters g).*1) h)
    as (m & h' & Hm & Hrows); [done| | |].
  { intros [a one] Hin. by apply enumerate_In. }
  { intros a b one two Ha Hb Hne.
    destruct (indexed_get one two g (Hix a b one two Ha Hb Hne))
      as (al & Hal & _).
    exists al. by rewrite Hal. }
  exists m, (g, h'). split.
  { unfold matrix. munfold. simpl. rewrite Hm. done. }
  intros a b ra rb x y Hra Hx' Hrb Hy'.
  destruct (matrix_cell g m a b ra x Hrows Hra Hx')
    as (one & two & Hone & Htwo & Hxy).
  destruct (matrix_cell g m b a rb y Hrows Hrb Hy')
    as (two' & one' & Htwo' & Hone' & Hyx).
  assert (two' = two) as -> by congruence.
  assert (one' = one) as -> by congruence.
  unfold entry_ok in Hxy, Hyx. simpl in Hxy, Hyx.
  destruct (Nat.eqb_spec a b) as [->|Hne].
  - rewrite Nat.eqb_refl in Hyx. subst. by exists 0%Q, 0%Q.
  - destruct (Nat.eqb_spec b a) as [?|_]; [by subst|].
    destruct Hxy as (al1 & Hg1 & ->). destruct Hyx as (al2 & Hg2 & ->).
    destruct (indexed_get one two g (Hix a b one two Hone Htwo Hne))
      as (al & Hab & Hba).
    rewrite Hab in Hg1. rewrite Hba in Hg2. simpl in *.
    injection Hg1 as <-. injection Hg2 as <-.
    eexists _, _. split; [reflexivity|]. split; [reflexivity|]. ring.
Qed.

Lemma matrix_symmetric_witness :
  ∃ m w',
    matrix (Float.Finite (1 # 2)) false false (Data.g3, Data.h0) = (Ok m, w')
    ∧ ∀ a b row_a row_b cell_ab cell_ba,
        m !! a = Some row_a → row_a !! b = Some cell_ab →
        m !! b = Some row_b → row_b !! a = Some cell_ba →
        ∃ x y,
          cell_ab = Float.Finite x ∧ cell_ba = Float.Finite y ∧ (x == y)%Q.
Proof.
  apply matrix_symmetric.
  assert ((clusters Data.g3).*1 = ["X"; "Y"; "Z"]) as -> by reflexivity.
  assert (stored "X" "Y" Data.g1) as Hxy.
  { apply (stored_now "X" "Y" Data.first init);
      [vm_compute; reflexivity|reflexivity..]. }
  assert (stored "X" "Z" (add_alignment Data.xz Data.g1).2) as Hxz.
  { apply (stored_now "X" "Z" Data.xz Data.g1);
      [vm_compute; reflexivity|reflexivity..]. }
  assert (stored "Y" "Z" Data.g3) as Hyz.
  { apply (stored_now "Y" "Z" Data.yz (add_alignment Data.xz Data.g1).2);
      [vm_compute; reflexivity|reflexivity..]. }
  assert (stored "X" "Y" Data.g3) as Hxy3.
  { apply (stored_later "X" "Y" (add_alignment Data.xz Data.g1).2);
      [|apply step_add_alignment].
    apply (stored_later "X" "Y" Data.g1); [done|apply step_add_alignment]. }
  assert (stored "X" "Z" Data.g3) as Hxz3.
  { apply (stored_later "X" "Z" (add_alignment Data.xz Data.g1).2);
      [done|apply step_add_alignment]. }
  intros a b one two Ha Hb Hne.
  destruct a as [|[|[|a]]]; destruct b as [|[|[|b]]];
    simpl in Ha, Hb; try done;
    injection Ha as <-; injection Hb as <-; auto.
Defined.

(** ** The Alignment and Link classes *)

Section Rounding.

(** The rounding of one float operation: it keeps the order, and it keeps
    the integers up to [top], which a float holds exactly. *)
Variable round : Q → Q.
Variable top : nat.
Hypothesis round_mono : ∀ x y, (x <= y)%Q → (round x <= round y)%Q.
Hypothesis round_int :
  ∀ n : nat, (n ≤ top)%nat →
    (round (inject_Z (Z.of_nat n)) == inject_Z (Z.of_nat n))%Q.

Lemma inject_S (n : nat) :
  (inject_Z (Z.of_nat (S n)) == inject_Z (Z.of_nat n) + 1)%Q.
Proof. rewrite Nat2Z.inj_succ, <- Z.add_1_r, inject_Z_plus. reflexivity. Qed.

Lemma round_le_int (x : Q) (n : nat) :
  (n ≤ top)%nat → (x <= inject_Z (Z.of_nat n))%Q →
  (round x <= inject_Z (Z.of_nat n))%Q.
Proof.
  intros Hn Hx. apply Qle_trans with (round (inject_Z (Z.of_nat n))).
  - by apply round_mono.
  - apply Qle_lteq. right. by apply round_int.
Qed.

Lemma round_nonneg (x : Q) : (0 <= x)%Q → (0 <= round x)%Q.
Proof.
  intros Hx. apply Qle_trans with (round (inject_Z (Z.of_nat 0))).
  - apply Qle_lteq. right. symmetry. apply round_int. lia.
  - by apply round_mono.
Qed.

Lemma float_sum_bounds (l : list Q) (acc : Q) (k : nat) :
  (k + length l ≤ top)%nat →
  (0 <= acc)%Q → (acc <= inject_Z (Z.of_nat k))%Q →
  (∀ x, In x l → (0 <= x)%Q ∧ (x <= 1)%Q) →
  (0 <= fold_left (λ acc x, round (acc + x)%Q) l acc)%Q
  ∧ (fold_left (λ acc x, round (acc + x)%Q) l acc
     <= inject_Z (Z.of_nat (k + length l)))%Q.
Proof.
  revert acc k. induction l as [|x l IH]; intros acc k Htop H0 Hk Hl.
  - cbn [length fold_left]. rewrite Nat.add_0_r. done.
  - cbn [length fold_left] in *.
    destruct (Hl x) as [Hx0 Hx1]; [by left|].
    replace (k + S (length l))%nat with (S k + length l)%nat by lia.
    apply IH; [lia| | |intros; apply Hl; by right].
    + apply round_nonneg. lra.
    + apply round_le_int; [lia|]. rewrite inject_S. lra.
Qed.

Lemma score_in_unit (a : Alignment.t) :
  (length (Alignment.links a) ≤ top)%nat →
  Alignment.links a ≠ [] →
  (∀ link, In link (Alignment.links a) →
     (0 <= Link.identity link)%Q ∧ (Link.identity link <= 1)%Q) →
  ∃ s, Records.score round a = Ok s ∧ (0 <= s)%Q ∧ (s <= 1)%Q.
Proof.
  intros Htop Hne Hl. unfold Records.score, Records.float_sum.
  destruct (Alignment.links a) as [|link links] eqn:Hlinks; [done|].
  eexists. split; [reflexivity|].
  set (l := link :: links) in *.
  destruct (float_sum_bounds (Link.identity <$> l) 0 0) as [Hlo Hhi].
  { rewrite length_fmap. unfold l in *. simpl in *. lia. }
  { lra. }
  { change (inject_Z (Z.of_nat 0)) with 0%Q. lra. }
  { intros x Hx. apply in_map_iff in Hx as (link' & <- & Hin). auto. }
  rewrite length_fmap in Hhi. rewrite Nat.add_0_l in Hhi.
  assert (0 < inject_Z (Z.of_nat (length l)))%Q as Hpos.
  { change 0%Q with (inject_Z 0). rewrite <- Zlt_Qlt. subst l. simpl. lia. }
  split.
  - apply round_nonneg. apply Qle_shift_div_l; [done|]. lra.
  - apply (round_le_int _ 1); [unfold l in *; simpl in *; lia|].
    change (inject_Z (Z.of_nat 1)) with 1%Q.
    apply Qle_shift_div_r; [done|]. lra.
Qed.

End Rounding.

(** X15: [score] raises ValueError exactly when the alignment has no
    links; otherwise, when the identities of all links lie between 0 and
    1, it returns a value between 0 and 1, under every rounding of the
    additions and of the division that keeps the order and keeps the
    integers up to the number of links. *)
Theorem score_bounds (round : Q → Q) (a : Alignment.t) :
  (∀ x y, (x <= y)%Q → (round x <= round y)%Q) →
  (∀ n : nat, (n ≤ length (Alignment.links a))%nat →
     (round (inject_Z (Z.of_nat n)) == inject_Z (Z.of_nat n))%Q) →
  (Alignment.links a = [] ↔ Records.score round a = Raise ValueError)
  ∧ (Alignment.links a ≠ [] →
     (∀ link, In link (Alignment.links a) →
        (0 <= Link.identity link)%Q ∧ (Link.identity link <= 1)%Q) →
     ∃ s, Records.score round a = Ok s ∧ (0 <= s)%Q ∧ (s <= 1)%Q).
Proof.
  intros Hmono Hint. split.
  - unfold Records.score. destruct (Alignment.links a); split; done.
  - intros Hne Hl.
    by apply (score_in_unit round (length (Alignment.links a))).
Qed.

Lemma score_bounds_witness :
  ∃ s, Records.score (λ x, x) Data.yz = Ok s ∧ (0 <= s)%Q ∧ (s <= 1)%Q.
Proof.
  apply (score_bounds (λ x, x) Data.yz).
  - intros x y Hxy. exact Hxy.
  - intros n _. reflexivity.
  - done.
  - intros link [<-|[<-|[]]]; simpl; split; lra.
Defined.

(** X16: [add_link] appends one link; afterwards [contains] holds for
    both genes of the new link and still holds for every gene it held
    for. *)
Theorem add_link_contains (a : Alignment.t) (query target : Gene.t)
    (identity similarity : Q) (h : heap) :
  let a' := (Records.add_link a query target identity similarity h).1 in
  length (Alignment.links a') = S (length (Alignment.links a))
  ∧ Records.contains a' query = true
  ∧ Records.contains a' target = true
  ∧ ∀ gene, Records.contains a gene = true → Records.contains a' gene = true.
Proof.
  unfold Records.add_link, Records.contains. simpl.
  rewrite length_app, !existsb_app. simpl. split_and!.
  - lia.
  - apply orb_true_iff. right. rewrite orb_false_r.
    apply py_in_two. by left.
  - apply orb_true_iff. right. rewrite orb_false_r.
    apply py_in_two. by right.
  - intros gene Hin. rewrite existsb_app, Hin. done.
Qed.

(** ** Aligning two clusters *)

Lemma compute_identity_bounds (alignment : string) (identity similarity : Q) :
  compute_identity alignment = Ok (identity, similarity) →
  (0 <= identity)%Q ∧ (identity <= similarity)%Q ∧ (similarity <= 1)%Q.
Proof.
  unfold compute_identity.
  destruct (split_lines alignment) as [|one [|x [|two [|y [|z l]]]]];
    try done.
  unfold identity_of_strings.
  destruct (scan one two) as [c|] eqn:Hscan; [|done]. simpl.
  destruct (true_div (matches c) (length_ c)) as [i|] eqn:Hi; [|done].
  destruct (true_div (matches c + similar c) (length_ c)) as [s|] eqn:Hs;
    [|done].
  simpl. intros [= <- <-].
  apply true_div_ok in Hi as [Hnz ->]. apply true_div_ok in Hs as [_ ->].
  apply scan_bounds in Hscan as (Hm & Hk & Hd).
  by apply div_bounds.
Qed.

Section AligningFacts.

Variable aligner : string → string → string.
Variable cutoff : Q.

Lemma align_fold (pairs : list (Gene.t * Gene.t)) (a a' : Alignment.t)
    (h h' : heap) :
  fold_each (align_genes aligner cutoff) pairs a h = (Ok a', h') →
  ∃ new,
    Alignment.links a' = Alignment.links a ++ new
    ∧ Alignment.query a' = Alignment.query a
    ∧ Alignment.target a' = Alignment.target a
    ∧ (length new ≤ length pairs)%nat
    ∧ Link.uid <$> new = pretty <$> seq (link_id_iter h) (length new)
    ∧ Forall (good_link cutoff pairs) new
    ∧ sublist (link_ends <$> new) pairs.
Proof.
  revert a h. induction pairs as [|pair pairs IH]; intros a h Hfold.
  - simpl in Hfold. injection Hfold as <- <-. exists [].
    rewrite app_nil_r. split_and!; try done.
  - simpl in Hfold. unfold mbind, M_bind in Hfold.
    unfold align_genes at 1 in Hfold.
    destruct (compute_identity _) as [[i s]|e] eqn:Hci; [|done].
    apply compute_identity_bounds in Hci as (H0 & His & H1).
    simpl in Hfold. destruct (Qlt_bool i cutoff) eqn:Hlt.
    + apply IH in Hfold as (new & Hl & Hq & Ht & Hlen & Huid & Hgood & Hsub).
      exists new. split_and!; try done; [simpl; lia| |by constructor].
      eapply Forall_impl; [done|]. intros link (?&?&?&?&?).
      split_and!; try done. by right.
    + apply IH in Hfold as (new & Hl & Hq & Ht & Hlen & Huid & Hgood & Hsub).
      simpl in Hl, Hq, Ht, Huid.
      exists (Link.Make (pretty (link_id_iter h)) pair.1 pair.2 i s :: new).
      split_and!; try done.
      * by rewrite Hl, <- app_assoc.
      * simpl. lia.
      * cbn [length seq]. rewrite !fmap_cons. f_equal. exact Huid.
      * constructor.
        -- split_and!; try done. simpl. left. by destruct pair.
        -- eapply Forall_impl; [done|]. intros link (?&?&?&?&?).
           split_and!; try done. by right.
      * rewrite fmap_cons. unfold link_ends at 1. simpl.
        destruct pair. by constructor.
Qed.

Lemma gene_pairs_In (one two : Cluster.t) (x y : Gene.t) :
  In (x, y) (gene_pairs one two) →
  ∃ la lb,
    In la (Cluster.loci one) ∧ In lb (Cluster.loci two)
    ∧ In x (Locus.genes la) ∧ In y (Locus.genes lb).
Proof.
  unfold gene_pairs. intros Hin.
  apply in_flat_map in Hin as ([la lb] & Hl & Hg). simpl in Hg.
  apply in_prod_iff in Hl as [? ?]. apply in_prod_iff in Hg as [? ?].
  by exists la, lb.
Qed.

Lemma align_clusters_new (one two : Cluster.t) (h h' : heap)
    (a : Alignment.t) :
  align_clusters aligner one two cutoff h = (Ok a, h') →
  Alignment.query a = one ∧ Alignment.target a = two
  ∧ (length (Alignment.links a) ≤ length (gene_pairs one two))%nat
  ∧ NoDup (Link.uid <$> Alignment.links a)
  ∧ Forall (good_link cutoff (gene_pairs one two)) (Alignment.links a)
  ∧ sublist (link_ends <$> Alignment.links a) (gene_pairs one two).
Proof.
  unfold align_clusters. simpl. intros Hfold.
  apply align_fold
    in Hfold as (new & Hl & Hq & Ht & Hlen & Huid & Hgood & Hsub).
  simpl in *. rewrite Hl. split_and!; try done.
  rewrite Huid. apply NoDup_fmap_2; [apply _|]. apply NoDup_seq.
Qed.

End AligningFacts.

(** X17: every link of an alignment that [align_clusters] returns meets
    the cutoff (its identity is not under it) and satisfies
    0 <= identity <= similarity <= 1, whatever the aligner answers. *)
Theorem align_clusters_links_meet_cutoff (aligner : string → string → string)
    (one two : Cluster.t) (cutoff : Q) (h h' : heap) (a : Alignment.t)
    (link : Link.t) :
  align_clusters aligner one two cutoff h = (Ok a, h') →
  In link (Alignment.links a) →
  Qlt_bool (Link.identity link) cutoff = false
  ∧ (0 <= Link.identity link)%Q
  ∧ (Link.identity link <= Link.similarity link)%Q
  ∧ (Link.similarity link <= 1)%Q.
Proof.
  intros Hal Hin.
  destruct (align_clusters_new aligner cutoff one two h h' a Hal)
    as (_ & _ & _ & _ & Hgood & _).
  rewrite Forall_forall in Hgood.
  destruct (Hgood link) as (?&?&?&?&_); [by apply list_elem_of_In|done].
Qed.

(** X18: an alignment that [align_clusters] returns has the two clusters as
    query and target; its links, each read as the pair of its query and
    its target, are a subsequence of the pairs of genes in the order of
    the loops, so that every pair of genes the loops visit gives at most
    one link and the links keep the order of the loops; the links have
    pairwise distinct uids, and every link joins a gene of a locus of the
    first cluster to a gene of a locus of the second. *)
Theorem align_clusters_shape (aligner : string → string → string)
    (one two : Cluster.t) (cutoff : Q) (h h' : heap) (a : Alignment.t) :
  align_clusters aligner one two cutoff h = (Ok a, h') →
  Alignment.query a = one ∧ Alignment.target a = two
  ∧ sublist (link_ends <$> Alignment.links a) (gene_pairs one two)
  ∧ (length (Alignment.links a) ≤ length (gene_pairs one two))%nat
  ∧ NoDup (Link.uid <$> Alignment.links a)
  ∧ ∀ link, In link (Alignment.links a) →
      ∃ la lb,
        In la (Cluster.loci one) ∧ In lb (Cluster.loci two)
        ∧ In (Link.query link) (Locus.genes la)
        ∧ In (Link.target link) (Locus.genes lb).
Proof.
  intros Hal.
  destruct (align_clusters_new aligner cutoff one two h h' a Hal)
    as (Hq & Ht & Hlen & Hnd & Hgood & Hsub).
  split_and!; try done. intros link Hin.
  rewrite Forall_forall in Hgood.
  destruct (Hgood link) as (_&_&_&_&Hp); [by apply list_elem_of_In|].
  by apply gene_pairs_In.
Qed.

Lemma align_clusters_links_meet_cutoff_witness :
  ∃ a h' link rest,
    align_clusters plain_aligner Data.X Data.Y default_threshold Data.h0
    = (Ok a, h')
    ∧ Alignment.links a = link :: rest
    ∧ Qlt_bool (Link.identity link) default_threshold = false.
Proof.
  eexists _, _, _, _. split; [vm_compute; reflexivity|].
  split; [reflexivity|].
  eapply (align_clusters_links_meet_cutoff plain_aligner Data.X Data.Y
            default_threshold Data.h0).
  - vm_compute. reflexivity.
  - left. reflexivity.
Defined.

Lemma align_clusters_shape_witness :
  ∃ a h',
    align_clusters plain_aligner Data.X Data.Y default_threshold Data.h0
    = (Ok a, h')
    ∧ Alignment.query a = Data.X ∧ Alignment.target a = Data.Y
    ∧ sublist (link_ends <$> Alignment.links a)
        (gene_pairs Data.X Data.Y).
Proof.
  eexists _, _. split; [vm_compute; reflexivity|].
  edestruct (align_clusters_shape plain_aligner Data.X Data.Y
               default_threshold Data.h0) as (Hq & Ht & Hsub & _);
    [vm_compute; reflexivity|].
  split; [exact Hq|]. split; [exact Ht|exact Hsub].
Defined.

(** ** Serialization *)

Lemma odict_set_In {V} (k k' : string) (v v' : V) (d : list (string * V)) :
  In (k', v') (odict_set k v d) → (k' = k ∧ v' = v) ∨ In (k', v') d.
Proof.
  induction d as [|kv d IH]; simpl.
  - intros [[= <- <-]|[]]. by left.
  - destruct (String.eqb_spec kv.1 k) as [Hk|Hk]; simpl.
    + intros [[= <- <-]|Hin]; [by left|right; by right].
    + intros [Heq|Hin]; [right; by left|].
      destruct (IH Hin) as [?|?]; [by left|right; by right].
Qed.

Lemma put_links_facts (links : list Link.t) (s : serial) :
  let s' := fold_left put_link links s in
  salignments s' = salignments s
  ∧ (∀ u, is_Some (slinks s !! u) → is_Some (slinks s' !! u))
  ∧ (∀ link, In link links → is_Some (slinks s' !! Link.uid link)).
Proof.
  revert s. induction links as [|link links IH]; intros s; simpl.
  - split_and!; auto. intros ? [].
  - destruct (IH (put_link s link)) as (-> & Hmono & Hnew).
    split_and!; [done| |].
    + intros u Hu. apply Hmono. simpl.
      destruct (decide (Link.uid link = u)) as [<-|Hne].
      * rewrite lookup_insert_eq. eauto.
      * by rewrite lookup_insert_ne.
    + intros link' [<-|Hin]; [|by apply Hnew].
      apply Hmono. simpl. rewrite lookup_insert_eq. eauto.
Qed.

Lemma put_alignments_links (l : list Alignment.t) (s : serial) :
  links_present s → links_present (fold_left put_alignment l s).
Proof.
  revert s. induction l as [|a l IH]; intros s Hs; [done|].
  simpl. apply IH. unfold put_alignment.
  set (s1 := Serial _ _ _ _ _ _).
  destruct (put_links_facts (Alignment.links a) s1) as (Hal & Hmono & Hnew).
  intros k p lu Hin Hlu. rewrite Hal in Hin. subst s1. simpl in *.
  apply odict_set_In in Hin as [[-> ->]|Hin].
  - simpl in Hlu. apply in_map_iff in Hlu as (link & <- & Hlink).
    by apply Hnew.
  - apply Hmono. by eapply Hs.
Qed.

Lemma put_clusters_keys (l : list (string * Cluster.t)) (s : serial) :
  let s' := fold_left put_cluster l s in
  (∀ k, is_Some (sclusters s !! k) → is_Some (sclusters s' !! k))
  ∧ (∀ k, In k l.*1 → is_Some (sclusters s' !! k)).
Proof.
  revert s. induction l as [|kv l IH]; intros s; simpl.
  - split; [done|]. intros ? [].
  - destruct (IH (put_cluster s kv)) as [Hmono Hnew].
    destruct (put_cluster_facts s kv) as (_ & Hc & _ & _).
    assert (∀ k, is_Some (sclusters s !! k) ∨ k = kv.1 →
                 is_Some (sclusters (put_cluster s kv) !! k)) as Hstep.
    { intros k Hk. rewrite Hc.
      destruct (decide (kv.1 = k)) as [<-|Hne].
      - rewrite lookup_insert_eq. eauto.
      - rewrite lookup_insert_ne by done. by destruct Hk. }
    split.
    + intros k Hk. apply Hmono, Hstep. by left.
    + intros k [<-|Hin]; [|by apply Hnew].
      apply Hmono, Hstep. by right.
Qed.

Lemma put_clusters_alignments (l : list (string * Cluster.t)) (s : serial) :
  salignments (fold_left put_cluster l s) = salignments s.
Proof.
  revert s. induction l as [|kv l IH]; intros s; [done|].
  simpl. rewrite IH. unfold put_cluster.
  set (s1 := Serial _ _ _ _ _ _).
  assert (salignments s1 = salignments s) as H1 by done.
  clearbody s1. revert s1 H1.
  induction (Cluster.loci kv.2) as [|locus loci IHl]; intros s1 H1; [done|].
  simpl. apply IHl. unfold put_locus.
  set (s2 := Serial _ _ _ _ _ _).
  assert (salignments s2 = salignments s) as H2 by done.
  clearbody s2. revert s2 H2.
  induction (Locus.genes locus) as [|gene genes IHg]; intros s2 H2; [done|].
  simpl. by apply IHg.
Qed.

(** X19: the dictionary that [to_dict] returns is closed under its own
    references: [order] lists the cluster keys in the order of the store,
    each of them has a cluster payload, and every locus, gene and link
    identifier named by a payload has a payload of its own. *)
Theorem to_dict_closed (g : Globaligner) :
  order (to_dict g) = (clusters g).*1
  ∧ (∀ k, In k (order (to_dict g)) → is_Some (sclusters (to_dict g) !! k))
  ∧ loci_present (to_dict g)
  ∧ genes_present (to_dict g)
  ∧ links_present (to_dict g).
Proof.
  destruct (to_dict_facts g) as (Ho & Hg & Hl & _).
  split_and!; try done.
  - rewrite Ho. unfold to_dict.
    set (s0 := Serial _ _ _ _ _ _).
    destruct (put_alignments_facts (alignments g)
                (fold_left put_cluster (clusters g) s0)) as (_ & -> & _ & _).
    apply put_clusters_keys.
  - unfold to_dict. apply put_alignments_links.
    set (s0 := Serial _ _ _ _ _ _).
    intros k p lu Hin. by rewrite put_clusters_alignments in Hin.
Qed.

(** ** Contiguity *)

Lemma take_drop_two {A} (l : list A) (i : nat) :
  S i < length l →
  ∃ a b, l !! i = Some a ∧ l !! S i = Some b ∧ take 2 (drop i l) = [a; b].
Proof.
  revert i. induction l as [|x l IH]; intros i Hi; simpl in Hi; [lia|].
  destruct i as [|i].
  - destruct l as [|y l]; simpl in Hi; [lia|]. by exists x, y.
  - destruct (IH i) as (a & b & Ha & Hb & Ht); [lia|]. by exists a, b.
Qed.

Lemma new_generators_windows (genes : list Gene.t) (idxs : list nat)
    (st : list generator * heap) :
  let st' :=
    fold_left
      (λ st i,
         let r := new_generator (take 2 (drop i genes)) st.2 in
         (st.1 ++ [r.1], r.2))
      idxs st in
  length st'.1 = length st.1 + length idxs
  ∧ group_attr st'.2 = group_attr st.2
  ∧ ∀ p, In p st'.1 →
         In p st.1 ∨ ∃ i, In i idxs ∧ gen_genes p = take 2 (drop i genes).
Proof.
  revert st. induction idxs as [|i idxs IH]; intros st; simpl.
  - split_and!; [lia|done|auto].
  - specialize (IH (st.1 ++ [(new_generator (take 2 (drop i genes)) st.2).1],
                    (new_generator (take 2 (drop i genes)) st.2).2)).
    simpl in IH. destruct IH as (Hlen & Hattr & Hin).
    split_and!.
    + rewrite Hlen, length_app. simpl. lia.
    + done.
    + intros p Hp. apply Hin in Hp as [Hp|(j & Hj & Hg)].
      * apply in_app_or in Hp as [Hp|[<-|[]]]; [by left|].
        right. exists i. split; [by left|done].
      * right. exists j. split; [by right|done].
Qed.

Lemma locus_pairs_windows (st : list generator * heap) (locus : Locus.t) :
  length (locus_pairs st locus).1
  = length st.1 + (length (Locus.genes locus) - 1)
  ∧ group_attr (locus_pairs st locus).2 = group_attr st.2
  ∧ ∀ p, In p (locus_pairs st locus).1 →
         In p st.1
         ∨ ∃ i a b, Locus.genes locus !! i = Some a
                    ∧ Locus.genes locus !! S i = Some b
                    ∧ gen_genes p = [a; b].
Proof.
  destruct (new_generators_windows (Locus.genes locus)
              (seq 0 (Z.to_nat (Z.of_nat (length (Locus.genes locus)) - 1)))
              st) as (Hlen & Hattr & Hin).
  unfold locus_pairs. cbv zeta in *. split_and!.
  - rewrite Hlen, length_seq. lia.
  - done.
  - intros p Hp. apply Hin in Hp as [?|(i & Hi & Hg)]; [by left|right].
    apply in_seq in Hi.
    destruct (take_drop_two (Locus.genes locus) i) as (a & b & Ha & Hb & Ht);
      [lia|].
    exists i, a, b. by rewrite Hg.
Qed.

Lemma loci_pairs_windows (loci : list Locus.t) (st : list generator * heap) :
  length (fold_left locus_pairs loci st).1
  = length st.1
    + sum_list ((λ locus, length (Locus.genes locus) - 1) <$> loci)
  ∧ group_attr (fold_left locus_pairs loci st).2 = group_attr st.2
  ∧ ∀ p, In p (fold_left locus_pairs loci st).1 →
         In p st.1
         ∨ ∃ locus i a b, In locus loci
                          ∧ Locus.genes locus !! i = Some a
                          ∧ Locus.genes locus !! S i = Some b
                          ∧ gen_genes p = [a; b].
Proof.
  revert st. induction loci as [|locus loci IH]; intros st.
  - simpl. split_and!; [lia|done|auto].
  - destruct (IH (locus_pairs st locus)) as (Hlen & Hattr & Hin).
    destruct (locus_pairs_windows st locus) as (Hlen1 & Hattr1 & Hin1).
    cbn [fold_left]. split_and!.
    + rewrite Hlen, Hlen1, fmap_cons.
      change (sum_list (?x :: ?l)) with (x + sum_list l). lia.
    + by rewrite Hattr.
    + intros p Hp. apply Hin in Hp as [Hp|(l0 & i & a & b & ? & ?)].
      * apply Hin1 in Hp as [?|(i & a & b & ?)]; [by left|right].
        exists locus, i, a, b. split; [by left|done].
      * right. exists l0, i, a, b. split; [by right|done].
Qed.

Lemma windows_neighbours {A} (l : list A) :
  (λ i, take 2 (drop i l)) <$> seq 0 (length l - 1) = neighbours l.
Proof.
  induction l as [|a l IH]; [done|].
  destruct l as [|b l]; [done|].
  replace (length (a :: b :: l) - 1) with (S (length (b :: l) - 1))
    by (simpl; lia).
  cbn [seq fmap list_fmap]. rewrite <- fmap_S_seq, <- list_fmap_compose.
  change (neighbours (a :: b :: l)) with ([a; b] :: neighbours (b :: l)).
  rewrite <- IH. reflexivity.
Qed.

Lemma neighbours_length {A} (l : list A) :
  length (neighbours l) = length l - 1.
Proof.
  rewrite <- windows_neighbours, length_fmap, length_seq. done.
Qed.

Lemma new_generators_list (genes : list Gene.t) (idxs : list nat)
    (st : list generator * heap) :
  let st' :=
    fold_left
      (λ st i,
         let r := new_generator (take 2 (drop i genes)) st.2 in
         (st.1 ++ [r.1], r.2))
      idxs st in
  gen_genes <$> st'.1
  = (gen_genes <$> st.1) ++ ((λ i, take 2 (drop i genes)) <$> idxs)
  ∧ gen_id <$> st'.1
    = (gen_id <$> st.1) ++ seq (next_object st.2) (length idxs)
  ∧ next_object st'.2 = next_object st.2 + length idxs.
Proof.
  revert st. induction idxs as [|i idxs IH]; intros st; simpl.
  - rewrite !app_nil_r. split_and!; [done..|lia].
  - specialize (IH (st.1 ++ [(new_generator (take 2 (drop i genes)) st.2).1],
                    (new_generator (take 2 (drop i genes)) st.2).2)).
    simpl in IH. destruct IH as (Hg & Hi & Hn).
    rewrite Hg, Hi, Hn, !fmap_app, <- !app_assoc. simpl.
    split_and!; [done..|lia].
Qed.

Lemma locus_pairs_list (st : list generator * heap) (locus : Locus.t) :
  gen_genes <$> (locus_pairs st locus).1
  = (gen_genes <$> st.1) ++ neighbours (Locus.genes locus)
  ∧ gen_id <$> (locus_pairs st locus).1
    = (gen_id <$> st.1)
      ++ seq (next_object st.2) (length (Locus.genes locus) - 1)
  ∧ next_object (locus_pairs st locus).2
    = next_object st.2 + (length (Locus.genes locus) - 1).
Proof.
  destruct (new_generators_list (Locus.genes locus)
              (seq 0 (Z.to_nat (Z.of_nat (length (Locus.genes locus)) - 1)))
              st) as (Hg & Hi & Hn).
  unfold locus_pairs. cbv zeta in *.
  replace (Z.to_nat (Z.of_nat (length (Locus.genes locus)) - 1))
    with (length (Locus.genes locus) - 1) in * by lia.
  rewrite length_seq in Hi, Hn. rewrite windows_neighbours in Hg. done.
Qed.

Lemma loci_pairs_list (loci : list Locus.t) (st : list generator * heap) :
  gen_genes <$> (fold_left locus_pairs loci st).1
  = (gen_genes <$> st.1)
    ++ flat_map (λ locus, neighbours (Locus.genes locus)) loci
  ∧ gen_id <$> (fold_left locus_pairs loci st).1
    = (gen_id <$> st.1)
      ++ seq (next_object st.2)
           (sum_list ((λ locus, length (Locus.genes locus) - 1) <$> loci)).
Proof.
  revert st. induction loci as [|locus loci IH]; intros st.
  - simpl. by rewrite !app_nil_r.
  - destruct (IH (locus_pairs st locus)) as (Hg & Hi).
    destruct (locus_pairs_list st locus) as (Hg1 & Hi1 & Hn1).
    cbn [fold_left flat_map]. rewrite Hg, Hi, Hg1, Hi1, Hn1, fmap_cons.
    change (sum_list (?x :: ?l)) with (x + sum_list l).
    rewrite <- !app_assoc, seq_app. done.
Qed.

(** X20: [get_pairs] returns one new object for each pair of neighbouring
    genes of each locus, locus by locus and from left to right: the slices
    that the returned objects hold are exactly the pairs of neighbours of
    the loci, n - 1 for a locus of n genes and none for a locus with fewer
    than two genes, and the objects are made one after the other, each a
    new object; each object holds two genes that are neighbours in a locus
    of the cluster, in their order; no group index changes. *)
Theorem get_pairs_windows (cluster : Cluster.t) (h : heap) :
  gen_genes <$> (get_pairs cluster h).1
  = flat_map (λ locus, neighbours (Locus.genes locus)) (Cluster.loci cluster)
  ∧ gen_id <$> (get_pairs cluster h).1
    = seq (next_object h) (neighbour_count cluster)
  ∧ length (get_pairs cluster h).1 = neighbour_count cluster
  ∧ group_attr (get_pairs cluster h).2 = group_attr h
  ∧ ∀ p, In p (get_pairs cluster h).1 →
      ∃ locus i a b,
        In locus (Cluster.loci cluster)
        ∧ Locus.genes locus !! i = Some a
        ∧ Locus.genes locus !! S i = Some b
        ∧ gen_genes p = [a; b].
Proof.
  destruct (loci_pairs_windows (Cluster.loci cluster) ([], h))
    as (Hlen & Hattr & Hin).
  destruct (loci_pairs_list (Cluster.loci cluster) ([], h)) as (Hg & Hi).
  unfold get_pairs, neighbour_count. split_and!; [done..|].
  intros p Hp. by apply Hin in Hp as [[]|?].
Qed.

(** *** [compare_pairs] on values compared by value *)

Local Open Scope nat_scope.

Lemma NoDup_list_filter {A} (f : A → bool) (l : list A) :
  NoDup l → NoDup (List.filter f l).
Proof.
  rewrite !NoDup_ListNoDup. apply List.NoDup_filter.
Qed.

Lemma sum_list_with_ext {A} (f g : A → nat) (l : list A) :
  (∀ x, f x = g x) → sum_list_with f l = sum_list_with g l.
Proof.
  intros Hfg. induction l as [|x l IH]; simpl; [done|]. by rewrite Hfg, IH.
Qed.

Section ComparePairs.

Context {A : Type} `{PyEq A}.

(** [==] is equality of values, as for tuples of ints. *)
Hypothesis eqb_law : ∀ x y : A, py_eqb x y = true ↔ x = y.

Lemma py_in_In (x : A) (l : list A) : py_in x l = true ↔ In x l.
Proof.
  unfold py_in. rewrite existsb_exists. split.
  - intros (y & Hy & Heq). apply eqb_law in Heq. by subst.
  - intros Hx. exists x. split; [done|]. by apply eqb_law.
Qed.

Lemma py_count_cons (x y : A) (l : list A) :
  py_count x (y :: l) = (if py_eqb x y then 1 else 0) + py_count x l.
Proof. unfold py_count. simpl. by destruct (py_eqb x y). Qed.

Lemma py_count_not_in (x : A) (l : list A) : ¬ In x l → py_count x l = 0.
Proof.
  induction l as [|y l IH]; intros Hx; [done|].
  rewrite py_count_cons, IH by (intros ?; apply Hx; by right).
  destruct (py_eqb x y) eqn:Heq; [|done].
  apply eqb_law in Heq. subst. destruct Hx. by left.
Qed.

Lemma py_set_In (x : A) (l : list A) : In x (py_set l) ↔ In x l.
Proof.
  split; [apply py_set_subset|].
  induction l as [|y l IH]; simpl; [done|].
  destruct (py_eqb y x) eqn:Heq.
  - apply eqb_law in Heq. subst. by left.
  - intros [->|Hx]; [by left|]. right. apply filter_In.
    split; [by apply IH|]. by rewrite Heq.
Qed.

Lemma py_set_NoDup (l : list A) : NoDup (py_set l).
Proof.
  induction l as [|y l IH]; simpl; [constructor|].
  apply NoDup_cons. split.
  - rewrite list_elem_of_In. intros Hin. apply filter_In in Hin as [_ Hne].
    assert (py_eqb y y = true) as Hyy by (by apply eqb_law).
    by rewrite Hyy in Hne.
  - by apply NoDup_list_filter.
Qed.

Lemma fold_left_sum (f : A → nat) (l : list A) (acc : nat) :
  fold_left (λ total p, total + f p) l acc = acc + sum_list_with f l.
Proof.
  revert acc. induction l as [|x l IH]; intros acc; simpl; [lia|].
  rewrite IH. lia.
Qed.

Lemma compare_pairs_sum (one two : list A) :
  compare_pairs one two
  = sum_list_with (λ p, Nat.min (py_count p one) (py_count p two))
      (List.filter (λ p, py_in p two) (py_set one)).
Proof. unfold compare_pairs. by rewrite fold_left_sum. Qed.

(** The members of a duplicate-free list that are equal to [x]. *)
Lemma sum_indicator (x : A) (d : list A) :
  NoDup d →
  sum_list_with (λ p, if py_eqb p x then 1 else 0) d ≤ 1
  ∧ (In x d → sum_list_with (λ p, if py_eqb p x then 1 else 0) d = 1).
Proof.
  induction 1 as [|y d Hy Hd IH]; simpl; [split; [lia|done]|].
  destruct IH as [IHle IHin].
  destruct (py_eqb y x) eqn:Heq.
  - apply eqb_law in Heq. subst y.
    assert (sum_list_with (λ p, if py_eqb p x then 1 else 0) d = 0) as ->.
    { clear IHle IHin Hd. induction d as [|z d IHd]; simpl; [done|].
      rewrite IHd by (intros ?; apply Hy; by right).
      destruct (py_eqb z x) eqn:Hz; [|done].
      apply eqb_law in Hz. subst. destruct Hy. by left. }
    split; [lia|done].
  - split; [lia|]. intros [->|Hx]; [|by apply IHin].
    assert (py_eqb x x = true) as Hxx by (by apply eqb_law). congruence.
Qed.

Lemma sum_counts (d l : list A) :
  NoDup d →
  sum_list_with (λ p, py_count p l) d ≤ length l
  ∧ ((∀ x, In x l → In x d) →
     sum_list_with (λ p, py_count p l) d = length l).
Proof.
  intros Hd. induction l as [|x l IH].
  - split; [|intros _]; induction d; simpl; lia || (inversion Hd; auto).
  - destruct IH as [IHle IHeq].
    assert (sum_list_with (λ p, py_count p (x :: l)) d
            = sum_list_with (λ p, if py_eqb p x then 1 else 0) d
              + sum_list_with (λ p, py_count p l) d) as ->.
    { clear. induction d as [|y d IHd]; simpl; [done|].
      rewrite IHd, py_count_cons. lia. }
    destruct (sum_indicator x d Hd) as [Hle Hin].
    split; [simpl; lia|].
    intros Hall. rewrite Hin by (apply Hall; by left).
    rewrite IHeq by (intros; apply Hall; by right). done.
Qed.

Lemma compare_pairs_self_law (l : list A) : compare_pairs l l = length l.
Proof.
  rewrite compare_pairs_sum.
  assert (List.filter (λ p, py_in p l) (py_set l) = py_set l) as ->.
  { apply forallb_filter_id. apply forallb_forall. intros x Hx.
    apply py_in_In. by apply py_set_In. }
  rewrite (sum_list_with_ext _ (λ p, py_count p l))
    by (intros; apply Nat.min_id).
  apply sum_counts; [apply py_set_NoDup|]. intros x. apply py_set_In.
Qed.

Lemma compare_pairs_bound_law (one two : list A) :
  compare_pairs one two ≤ length one ∧ compare_pairs one two ≤ length two.
Proof.
  rewrite compare_pairs_sum.
  set (d := List.filter _ _).
  assert (NoDup d) as Hd by (apply NoDup_list_filter, py_set_NoDup).
  split.
  - etrans; [|apply (sum_counts d one Hd)].
    clear. induction d as [|x d IH]; simpl; lia.
  - etrans; [|apply (sum_counts d two Hd)].
    clear. induction d as [|x d IH]; simpl; lia.
Qed.

Lemma compare_pairs_comm_law (one two : list A) :
  compare_pairs one two = compare_pairs two one.
Proof.
  rewrite !compare_pairs_sum.
  rewrite (sum_list_with_ext _ (λ p, Nat.min (py_count p two)
                                       (py_count p one)))
    by (intros; apply Nat.min_comm).
  apply sum_list_with_Permutation_proper.
  apply NoDup_Permutation;
    [apply NoDup_list_filter, py_set_NoDup..|].
  intros x. rewrite !list_elem_of_In, !filter_In, !py_set_In, !py_in_In.
  tauto.
Qed.

End ComparePairs.

Lemma pair_eqb_law (x y : nat * nat) : py_eqb x y = true ↔ x = y.
Proof.
  unfold py_eqb, pair_pyeq. destruct x as [a b], y as [c d]. simpl.
  rewrite andb_true_iff, !Nat.eqb_eq. split; [by intros [-> ->]|].
  by intros [= -> ->].
Qed.

(** X21: on pairs of group indices, compared by value, a list compared
    with itself scores its own length. *)
Theorem compare_pairs_self (l : list (nat * nat)) :
  compare_pairs l l = length l.
Proof. apply compare_pairs_self_law, pair_eqb_law. Qed.

(** X22: on pairs compared by value, the score never exceeds the length
    of either list. *)
Theorem compare_pairs_bound (one two : list (nat * nat)) :
  compare_pairs one two ≤ length one ∧ compare_pairs one two ≤ length two.
Proof. apply compare_pairs_bound_law, pair_eqb_law. Qed.

(** X23: on pairs compared by value, the score does not depend on which
    list comes first. *)
Theorem compare_pairs_comm (one two : list (nat * nat)) :
  compare_pairs one two = compare_pairs two one.
Proof. apply compare_pairs_comm_law, pair_eqb_law. Qed.
